(** * Chunked parallel codec pipeline of [compression.cpp]

    A shallow embedding of [compressBlock], [decompressBlock],
    [compressFile], [decompressFile] and [main], with the properties of
    the pipeline stated against it.

    Modelling conventions.
    - A file is the list of its bytes; [std::vector<char>] is [list byte].
    - [std::ifstream] is the record [istream]: the bytes not yet
      extracted, [eofbit] and the count of the last unformatted read.
    - zlib is the external collaborator: the class [Zlib] gives the stream
      [deflate] that [compress] produces and the decoder [inflate] that
      [uncompress] runs, with the laws of zlib's manual.
    - [sizeof(uLong)] is the parameter [sizeof_uLong] of the class
      [Platform]; integers are written little-endian, as on the
      platforms the tool targets.
    - Resources are unbounded: [std::bad_alloc], [std::length_error],
      [Z_MEM_ERROR] and a failure to create a thread are outside the
      model.
    - Threads: every worker changes the shared vectors in one critical
      section, so a run of the pool is an interleaving of thread
      launches, worker commits and joins ([pool_step]). *)

From stdpp Require Import base list numbers relations.
From Stdlib Require Import Strings.Byte.
From Equations Require Import Equations.
From Equations.Prop Require Import Logic.

(** ** Bytes and buffers *)

#[global] Instance byte_eq_decision : EqDecision byte := Byte.byte_eq_dec.

Definition buffer : Type := list byte.

(** [constexpr size_t CHUNK_SIZE = 16384;] *)
Definition CHUNK_SIZE : nat := Z.to_nat 16384.

(** The magic number ["CMP1"] of the file header. *)
Definition magic : buffer := [x43; x4d; x50; x31].

(** ** The platform: width of [uLong] *)

Class Platform := {
  sizeof_uLong : nat;
  (** [unsigned long] has at least 32 bits. *)
  sizeof_uLong_ge : 4 ≤ sizeof_uLong
}.

Definition byte_of_N (n : N) : byte :=
  match Byte.of_N (n mod 256) with Some b => b | None => x00 end.

(** The object representation of an unsigned integer of [w] bytes:
    [outFile.write(reinterpret_cast<const char*>(&chunkSize), sizeof(chunkSize))]. *)
Fixpoint le_encode (w : nat) (n : N) : buffer :=
  match w with
  | 0 => []
  | S w' => byte_of_N n :: le_encode w' (n / 256)
  end.

(** [inFile.read(reinterpret_cast<char*>(&chunkSize), sizeof(chunkSize))]
    followed by a use of [chunkSize]. *)
Fixpoint le_decode (bs : buffer) : N :=
  match bs with
  | [] => 0
  | b :: bs' => Byte.to_N b + 256 * le_decode bs'
  end.

(** ** Input streams *)

(** [failbit] is only ever set together with [eofbit] by the reads of
    this program (a read that reaches the end of the file sets both), so
    [eofbit] stands for both. *)
Record istream := {
  pending : buffer;
  eofbit : bool;
  gcount : nat
}.

Definition ifstream_open (content : buffer) : istream :=
  {| pending := content; eofbit := false; gcount := 0 |}.

(** A stream in good state with [rest] left to read. *)
Definition good_stream (rest : buffer) (g : nat) : istream :=
  {| pending := rest; eofbit := false; gcount := g |}.

(** [inFile.read(p, n)]: the characters stored and the stream
    afterwards. On a stream that is not good nothing is extracted; when
    the file ends before [n] characters, what is left is extracted and
    [eofbit | failbit] is set. *)
Definition istream_read (n : nat) (s : istream) : buffer * istream :=
  if eofbit s then
    ([], {| pending := pending s; eofbit := true; gcount := 0 |})
  else if decide (n ≤ length (pending s)) then
    (take n (pending s),
     {| pending := drop n (pending s); eofbit := false; gcount := n |})
  else
    (pending s,
     {| pending := []; eofbit := true; gcount := length (pending s) |}).

(** ** zlib

    zlib is an external library: its two calls are taken as a parameter
    with the contract that [zlib.h] documents. *)

Inductive zstatus := Z_OK | Z_BUF_ERROR | Z_DATA_ERROR.

(** [compressBound(sourceLen)] of zlib. *)
Definition compressBound (n : nat) : nat :=
  N.to_nat (let s := N.of_nat n in
            s + s / 4096 + s / 16384 + s / 33554432 + 13)%N.

Class Zlib := {
  (** the zlib stream [compress] produces for a source buffer *)
  deflate : buffer → buffer;
  (** the data a complete, valid zlib stream decodes to; [None] when
      the stream is corrupted or incomplete *)
  inflate : buffer → option buffer;
  inflate_deflate : ∀ d, inflate (deflate d) = Some d;
  (** a zlib stream has a 2-byte header and a 4-byte Adler-32 trailer *)
  inflate_min_length : ∀ z d, inflate z = Some d → 6 ≤ length z;
  deflate_bound : ∀ d, length (deflate d) ≤ compressBound (length d)
}.

Section Codec.
Context {zlib : Zlib}.

(** [compress(dest, &destLen, source, sourceLen)] with a destination of
    [destLen] bytes: the status and the bytes written. *)
Definition compress (destLen : nat) (source : buffer) : zstatus * buffer :=
  if decide (length (deflate source) ≤ destLen)
  then (Z_OK, deflate source)
  else (Z_BUF_ERROR, []).

(** [uncompress(dest, &destLen, source, sourceLen)]. *)
Definition uncompress (destLen : nat) (source : buffer) : zstatus * buffer :=
  match inflate source with
  | None => (Z_DATA_ERROR, [])
  | Some d =>
      if decide (length d ≤ destLen) then (Z_OK, d) else (Z_BUF_ERROR, [])
  end.

End Codec.

(** ** Reference instances

    A platform with an 8-byte [uLong], and a codec that stores the data
    between a two-byte header and a four-byte trailer. They satisfy the
    laws above (see [store_codec]) and serve to run the model on
    concrete files. *)

Definition LP64 : Platform :=
  {| sizeof_uLong := 8; sizeof_uLong_ge := ltac:(lia) |}.

Definition store_deflate (d : buffer) : buffer :=
  [x78; x01] ++ d ++ [x00; x00; x00; x00].

Definition store_inflate (z : buffer) : option buffer :=
  if decide (6 ≤ length z
             ∧ take 2 z = [x78; x01]
             ∧ drop (length z - 4) z = [x00; x00; x00; x00])
  then Some (take (length z - 6) (drop 2 z))
  else None.

(** ** Exceptions *)

(** The [std::runtime_error]s of the program, by throw site. *)
Inductive runtime_error :=
  | Compression_error            (* "Compression error: Data could not be compressed." *)
  | Decompression_error          (* "Decompression error: Data could not be decompressed." *)
  | Unable_to_open_input_file    (* "File error: Unable to open input file: ..." *)
  | Unable_to_open_output_file   (* "File error: Unable to open output file: ..." *)
  | Invalid_compressed_file_format (* "File error: Invalid compressed file format." *)
  | Corrupted_compressed_file.   (* "File error: Corrupted compressed file." *)

#[global] Instance runtime_error_eq_dec : EqDecision runtime_error.
Proof. solve_decision. Defined.

(** A call either returns a value or throws. *)
Inductive res (A : Type) :=
  | Val (a : A)
  | Exn (e : runtime_error).
Arguments Val {A} a.
Arguments Exn {A} e.

Section Blocks.
Context {zlib : Zlib}.

Definition compressBlock (data : buffer) : res buffer :=
  match data with
  | [] => Val []
  | _ =>
      match compress (length data * 2) data with
      | (Z_OK, compressedData) => Val compressedData
      | _ => Exn Compression_error
      end
  end.

Definition decompressBlock (compressedData : buffer) (originalSize : nat)
  : res buffer :=
  match compressedData with
  | [] => Val []
  | _ =>
      match uncompress originalSize compressedData with
      | (Z_OK, decompressedData) => Val decompressedData
      | _ => Exn Decompression_error
      end
  end.

End Blocks.

(** ** The reading loops of the main thread *)

(** The [while (!inFile.eof())] loop of [compressFile]: [threads] holds
    the buffers captured by the threads launched so far, in launch
    order. *)
Equations? compressFile_loop (inFile : istream) (threads : list buffer)
  : list buffer by wf (length (pending inFile)) lt :=
  compressFile_loop inFile threads with inspect (eofbit inFile) => {
    | exist _ true He := threads
    | exist _ false He with inspect (istream_read CHUNK_SIZE inFile) => {
        | exist _ (buffer, inFile') Hr with inspect (gcount inFile') => {
            | exist _ 0 Hg := threads                     (* bytesRead == 0: break *)
            | exist _ (S k) Hg := compressFile_loop inFile' (threads ++ [buffer])
          }
      }
  }.
Proof.
  unfold istream_read in Hr. rewrite He in Hr.
  destruct (decide _); simplify_eq/=; [rewrite length_drop|]; lia.
Qed.

Section Records.
Context {platform : Platform}.

(** The [while (!inFile.eof())] loop of [decompressFile]: the buffers
    captured by the threads launched, and the exception thrown out of
    the loop, if any. *)
Equations? decompressFile_loop (inFile : istream) (threads : list buffer)
  : list buffer * option runtime_error
  by wf (length (pending inFile)) lt :=
  decompressFile_loop inFile threads with inspect (eofbit inFile) => {
    | exist _ true He := (threads, None)
    | exist _ false He with inspect (istream_read sizeof_uLong inFile) => {
        | exist _ (raw, inFile1) Hr1 with inspect (eofbit inFile1) => {
            | exist _ true He1 := (threads, None)     (* partial read: break *)
            | exist _ false He1
                with inspect (istream_read (N.to_nat (le_decode raw)) inFile1) => {
                | exist _ (compressedBuffer, inFile2) Hr2
                    with inspect (N.of_nat (gcount inFile2) =? le_decode raw)%N => {
                    | exist _ false Hc :=
                        (threads, Some Corrupted_compressed_file)
                    | exist _ true Hc :=
                        decompressFile_loop inFile2
                          (threads ++ [compressedBuffer])
                  }
              }
          }
      }
  }.
Proof.
  pose proof sizeof_uLong_ge as Hw.
  unfold istream_read in Hr1, Hr2. rewrite He in Hr1.
  destruct (decide (sizeof_uLong ≤ _)); simplify_eq/=.
  destruct (decide (_ ≤ _)); simplify_eq/=; rewrite ?length_drop; lia.
Qed.

(** One chunk record as [compressFile] writes it: [chunkSize], then the
    chunk. *)
Definition record (chunk : buffer) : buffer :=
  le_encode sizeof_uLong (N.of_nat (length chunk)) ++ chunk.

(** What [sizeof(uLong)] bytes can hold. *)
Definition uLong_max_succ : N := (256 ^ N.of_nat sizeof_uLong)%N.

End Records.

(** ** The thread pool *)

Inductive thread_id := Main | Worker (i : nat).

(** What a [std::exception_ptr] refers to: the exception object, known
    by the thread that threw it, and its message. *)
Record exception := { thrower : thread_id; what : runtime_error }.

(** The two objects the workers share: [compressedChunks] (or
    [decompressedChunks]) and [threadException]. *)
Record shared := {
  chunks : list buffer;
  threadException : option exception
}.

Definition shared_init : shared :=
  {| chunks := []; threadException := None |}.

Inductive thread_state := Running | Finished | Joined.

#[global] Instance thread_state_eq_dec : EqDecision thread_state.
Proof. solve_decision. Defined.

(** The state of a run between the first launch and the last join:
    [queue] holds the buffers the reading loop has still to hand to a
    thread, [threads] is the vector of threads with the buffer each one
    captured. *)
Record pool := {
  queue : list buffer;
  threads : list (buffer * thread_state);
  mem : shared
}.

Inductive event := Launch | Commit (i : nat) | Join (i : nat).

Definition commits (tr : list event) : list nat :=
  omap (λ e, match e with Commit i => Some i | _ => None end) tr.

(** The threads launched along a trace. *)
Definition launches (tr : list event) : nat :=
  length (omap (λ e, match e with Launch => Some e | _ => None end) tr).

(** Threads that run at the same time in a state: launched, and not yet
    through their critical section. *)
Definition running (p : pool) : nat :=
  length (filter (λ t, t.2 = Running) (threads p)).

Definition pool_init (bufs : list buffer) : pool :=
  {| queue := bufs; threads := []; mem := shared_init |}.

(** Every thread launched and joined. *)
Definition pool_joined (p : pool) : Prop :=
  queue p = [] ∧ Forall (λ t, t.2 = Joined) (threads p).

Section Pool.
(** the call in the [try] block of the lambda *)
Variable job : buffer → res buffer.

(** The lambda of worker [i]: the result is appended under the vector's
    mutex, an exception is stored in [threadException] under
    [output_mutex]. *)
Definition worker (i : nat) (b : buffer) (m : shared) : shared :=
  match job b with
  | Val out =>
      {| chunks := chunks m ++ [out]; threadException := threadException m |}
  | Exn e =>
      {| chunks := chunks m;
         threadException := Some {| thrower := Worker i; what := e |} |}
  end.

Inductive pool_step : pool → event → pool → Prop :=
  | step_launch b q ts m :
      pool_step {| queue := b :: q; threads := ts; mem := m |}
                Launch
                {| queue := q; threads := ts ++ [(b, Running)]; mem := m |}
  | step_commit q ts m i b :
      ts !! i = Some (b, Running) →
      pool_step {| queue := q; threads := ts; mem := m |}
                (Commit i)
                {| queue := q; threads := <[i := (b, Finished)]> ts;
                   mem := worker i b m |}
  | step_join ts m i b :
      (* the join loop starts when the reading loop is over and joins
         in vector order; [join] returns once the thread has finished *)
      ts !! i = Some (b, Finished) →
      (∀ j t, j < i → ts !! j = Some t → t.2 = Joined) →
      pool_step {| queue := []; threads := ts; mem := m |}
                (Join i)
                {| queue := []; threads := <[i := (b, Joined)]> ts;
                   mem := m |}.

Inductive pool_steps (p : pool) : list event → pool → Prop :=
  | steps_done : pool_steps p [] p
  | steps_more tr p1 e p2 :
      pool_steps p tr p1 → pool_step p1 e p2 → pool_steps p (tr ++ [e]) p2.

(** The states of the shared objects the main thread can find after the
    join loop. *)
Definition pool_result (bufs : list buffer) (m : shared) : Prop :=
  ∃ tr p, pool_steps (pool_init bufs) tr p ∧ pool_joined p ∧ mem p = m.

(** The workers' critical sections taken in the order [sched]. *)
Definition run_workers (bufs : list buffer) (sched : list nat) (m : shared)
  : shared :=
  foldl (λ m i, match bufs !! i with
                | Some b => worker i b m
                | None => m
                end) m sched.

(** What holds of every state a run reaches. *)
Definition pool_inv (bufs : list buffer) (tr : list event) (p : pool) : Prop :=
  (fst <$> threads p) ++ queue p = bufs
  ∧ mem p = run_workers bufs (commits tr) shared_init
  ∧ NoDup (commits tr)
  ∧ ∀ i, i ∈ commits tr ↔ ∃ t, threads p !! i = Some t ∧ t.2 ≠ Running.

(** The exceptions caught by the workers, in the order of their
    critical sections. *)
Definition failures (bufs : list buffer) (sched : list nat) : list exception :=
  omap (λ i, match bufs !! i with
             | Some b => match job b with
                         | Exn e => Some {| thrower := Worker i; what := e |}
                         | Val _ => None
                         end
             | None => None
             end) sched.

(** The results appended by the workers, in the order of their critical
    sections. *)
Definition successes (bufs : list buffer) (sched : list nat) : list buffer :=
  omap (λ i, match bufs !! i with
             | Some b => match job b with
                         | Val out => Some out
                         | Exn _ => None
                         end
             | None => None
             end) sched.

End Pool.

(** The result of a job that returns. *)
Definition returned (job : buffer → res buffer) (b : buffer) : option buffer :=
  match job b with Val out => Some out | Exn _ => None end.

(** A schedule of [n] workers: the order in which they go through their
    critical sections. *)
Definition schedule (n : nat) (sched : list nat) : Prop := sched ≡ₚ seq 0 n.

(** ** [compressFile] and [decompressFile] *)

(** How a call ends: it returns, an exception leaves it, or
    [std::terminate] is called. *)
Inductive result := Returned | Thrown (e : exception) | Terminated.

(** [written]: what the call wrote to [outFile]. *)
Record outcome := { written : buffer; result_of : result }.

Definition throw_main (e : runtime_error) : outcome :=
  {| written := []; result_of := Thrown {| thrower := Main; what := e |} |}.

Section Files.
Context {platform : Platform} {zlib : Zlib}.

(** The work of a thread of [decompressFile]:
    [decompressBlock(compressedBuffer, CHUNK_SIZE)]. *)
Definition decompress_job (compressedBuffer : buffer) : res buffer :=
  decompressBlock compressedBuffer CHUNK_SIZE.

(** [compressFile] after the join loop; the header is in the file
    already. *)
Definition compressFile_finish (m : shared) : outcome :=
  match threadException m with
  | Some e => {| written := magic; result_of := Thrown e |}
  | None =>
      {| written := magic ++ concat (record <$> chunks m);
         result_of := Returned |}
  end.

(** [decompressFile] after the join loop. *)
Definition decompressFile_finish (m : shared) : outcome :=
  match threadException m with
  | Some e => {| written := []; result_of := Thrown e |}
  | None => {| written := concat (chunks m); result_of := Returned |}
  end.

(** The chunks [compressFile] hands to its threads. *)
Definition compressFile_chunks (content : buffer) : list buffer :=
  compressFile_loop (ifstream_open content) [].

(** [compressFile] under a schedule of its workers. [inputFile] is the
    content of the input file, [None] when it cannot be opened;
    [outputFile] tells whether the output file can be opened. *)
Definition compressFile (sched : list nat)
  (inputFile : option buffer) (outputFile : bool) : outcome :=
  match inputFile with
  | None => throw_main Unable_to_open_input_file
  | Some content =>
      if outputFile then
        compressFile_finish
          (run_workers compressBlock (compressFile_chunks content) sched
             shared_init)
      else throw_main Unable_to_open_output_file
  end.

(** The outcomes of [compressFile] over all runs of its threads. *)
Definition compressFile_runs
  (inputFile : option buffer) (outputFile : bool) (o : outcome) : Prop :=
  match inputFile with
  | None => o = throw_main Unable_to_open_input_file
  | Some content =>
      if outputFile then
        ∃ m, pool_result compressBlock (compressFile_chunks content) m
             ∧ o = compressFile_finish m
      else o = throw_main Unable_to_open_output_file
  end.

(** [char header[4]; inFile.read(header, 4);]: the array after the read
    and the stream. [header0] is the indeterminate content the array
    starts with. *)
Definition read_header (header0 content : buffer) : buffer * istream :=
  let '(got, inFile) := istream_read 4 (ifstream_open content) in
  (take 4 (got ++ drop (length got) header0), inFile).

(** The reading loop of [decompressFile] on the stream after the
    header. *)
Definition decompressFile_records (header0 content : buffer)
  : list buffer * option runtime_error :=
  decompressFile_loop (read_header header0 content).2 [].

(** An exception that leaves the reading loop unwinds the stack while
    [threads] holds threads that were never joined: the destructor of a
    joinable [std::thread] calls [std::terminate]. *)
Definition loop_exception (threads : list buffer) (e : runtime_error)
  : outcome :=
  match threads with
  | [] => throw_main e
  | _ => {| written := []; result_of := Terminated |}
  end.

(** [decompressFile] under a schedule of its workers. *)
Definition decompressFile (sched : list nat) (header0 : buffer)
  (inputFile : option buffer) (outputFile : bool) : outcome :=
  match inputFile with
  | None => throw_main Unable_to_open_input_file
  | Some content =>
      if outputFile then
        if decide ((read_header header0 content).1 = magic) then
          match decompressFile_records header0 content with
          | (bufs, Some e) => loop_exception bufs e
          | (bufs, None) =>
              decompressFile_finish
                (run_workers decompress_job bufs sched shared_init)
          end
        else throw_main Invalid_compressed_file_format
      else throw_main Unable_to_open_output_file
  end.

(** The outcomes of [decompressFile] over all runs of its threads. *)
Definition decompressFile_runs (header0 : buffer)
  (inputFile : option buffer) (outputFile : bool) (o : outcome) : Prop :=
  match inputFile with
  | None => o = throw_main Unable_to_open_input_file
  | Some content =>
      if outputFile then
        if decide ((read_header header0 content).1 = magic) then
          match decompressFile_records header0 content with
          | (bufs, Some e) => o = loop_exception bufs e
          | (bufs, None) =>
              ∃ m, pool_result decompress_job bufs m
                   ∧ o = decompressFile_finish m
          end
        else o = throw_main Invalid_compressed_file_format
      else o = throw_main Unable_to_open_output_file
  end.

(** How the process ends: [main] returns a status, or [std::terminate]
    aborts it. *)
Inductive exit := Exit (code : Z) | Abort.

(** [main]: [compressFile("input.txt", "compressed.dat")], then
    [decompressFile("compressed.dat", "decompressed.txt")], both in one
    [try] block whose handler returns 1. [input_txt] is the content of
    the input file ([None] when it cannot be opened); [compressed_dat]
    and [decompressed_txt] tell whether the two output files can be
    opened; [sched1] and [sched2] are the schedules of the workers of the
    two calls. The file written by the first call is the one the second
    call reads. The result is the way the process ends and what was
    written to "decompressed.txt". *)
Definition main (sched1 sched2 : list nat) (header0 : buffer)
  (input_txt : option buffer) (compressed_dat decompressed_txt : bool)
  : exit * buffer :=
  let c := compressFile sched1 input_txt compressed_dat in
  match result_of c with
  | Returned =>
      let d :=
        decompressFile sched2 header0 (Some (written c)) decompressed_txt in
      match result_of d with
      | Returned => (Exit 0, written d)
      | Thrown _ => (Exit 1, written d)
      | Terminated => (Abort, written d)
      end
  | Thrown _ => (Exit 1, [])
  | Terminated => (Abort, [])
  end.

End Files.

(** * Properties *)

(** ** Unfolding the loops *)

Lemma compressFile_loop_eq inFile threads :
  compressFile_loop inFile threads =
  if eofbit inFile then threads
  else let '(buffer, inFile') := istream_read CHUNK_SIZE inFile in
       match gcount inFile' with
       | 0 => threads
       | S _ => compressFile_loop inFile' (threads ++ [buffer])
       end.
Proof.
  funelim (compressFile_loop inFile threads);
    rewrite He, ?Hr; simpl; rewrite ?Hg; reflexivity.
Qed.

Lemma CHUNK_SIZE_pos : 0 < CHUNK_SIZE.
Proof. unfold CHUNK_SIZE. lia. Qed.

Lemma CHUNK_SIZE_val : Z.of_nat CHUNK_SIZE = 16384%Z.
Proof. unfold CHUNK_SIZE. lia. Qed.

#[global] Opaque CHUNK_SIZE.

Lemma istream_read_good n rest g :
  n ≤ length rest →
  istream_read n (good_stream rest g) =
  (take n rest, good_stream (drop n rest) n).
Proof.
  intros Hn. unfold istream_read, good_stream. cbn [eofbit pending].
  by rewrite decide_True.
Qed.

Lemma istream_read_short n rest g :
  length rest < n →
  istream_read n (good_stream rest g) =
  (rest, {| pending := []; eofbit := true; gcount := length rest |}).
Proof.
  intros Hn. unfold istream_read, good_stream. cbn [eofbit pending].
  rewrite decide_False; [done | lia].
Qed.

Lemma compressFile_loop_gcount rest g g' threads :
  compressFile_loop (good_stream rest g) threads =
  compressFile_loop (good_stream rest g') threads.
Proof.
  rewrite (compressFile_loop_eq (good_stream rest g)),
    (compressFile_loop_eq (good_stream rest g')).
  reflexivity.
Qed.

Lemma compressFile_loop_nil g threads :
  compressFile_loop (good_stream [] g) threads = threads.
Proof.
  pose proof CHUNK_SIZE_pos.
  rewrite compressFile_loop_eq. cbn [eofbit good_stream].
  rewrite (istream_read_short _ [] g) by (simpl; lia). done.
Qed.

Lemma compressFile_loop_last rest g threads :
  0 < length rest < CHUNK_SIZE →
  compressFile_loop (good_stream rest g) threads = threads ++ [rest].
Proof.
  intros Hl. rewrite compressFile_loop_eq. cbn [eofbit good_stream].
  rewrite (istream_read_short _ rest g) by lia. cbn [gcount].
  destruct (length rest) eqn:E; [lia|].
  by rewrite compressFile_loop_eq.
Qed.

Lemma compressFile_loop_full a rest g threads :
  length a = CHUNK_SIZE →
  compressFile_loop (good_stream (a ++ rest) g) threads =
  compressFile_loop (good_stream rest 0) (threads ++ [a]).
Proof.
  intros Hl. pose proof CHUNK_SIZE_pos.
  rewrite compressFile_loop_eq. cbn [eofbit good_stream].
  rewrite (istream_read_good _ (a ++ rest) g) by (rewrite length_app; lia).
  rewrite <- Hl. rewrite take_app_length, drop_app_length.
  cbn [gcount good_stream].
  destruct (length a) eqn:E; [lia|]. apply compressFile_loop_gcount.
Qed.

Lemma compressFile_loop_acc rest g threads :
  compressFile_loop (good_stream rest g) threads =
  threads ++ compressFile_loop (good_stream rest g) [].
Proof.
  remember (length rest) as n eqn:Hn.
  revert rest g threads Hn.
  induction (lt_wf n) as [n _ IH]. intros rest g threads ->.
  pose proof CHUNK_SIZE_pos.
  destruct (decide (length rest < CHUNK_SIZE)) as [Hlt|Hge].
  - destruct (decide (rest = [])) as [->|Hne].
    + rewrite !compressFile_loop_nil. by rewrite app_nil_r.
    + assert (0 < length rest) by (destruct rest; [done | simpl; lia]).
      by rewrite !compressFile_loop_last by lia.
  - assert (∃ a r, rest = a ++ r ∧ length a = CHUNK_SIZE) as (a & r & -> & Hl).
    { exists (take CHUNK_SIZE rest), (drop CHUNK_SIZE rest).
      rewrite take_drop, length_take. split; [done | lia]. }
    assert (length r < length (a ++ r)) as Hd by (rewrite length_app; lia).
    rewrite (compressFile_loop_full a r g threads Hl).
    rewrite (compressFile_loop_full a r g [] Hl).
    rewrite (IH (length r) Hd r 0 (threads ++ [a]) eq_refl).
    rewrite app_nil_l, (IH (length r) Hd r 0 [a] eq_refl).
    by rewrite <- app_assoc.
Qed.

Section ChunkFacts.
Context {platform : Platform} {zlib : Zlib}.

Lemma compressFile_chunks_nil : compressFile_chunks [] = [].
Proof. apply (compressFile_loop_nil 0). Qed.

Lemma compressFile_chunks_last c :
  0 < length c < CHUNK_SIZE → compressFile_chunks c = [c].
Proof. intros. by apply (compressFile_loop_last c 0 []). Qed.

Lemma compressFile_chunks_full a rest :
  length a = CHUNK_SIZE →
  compressFile_chunks (a ++ rest) = a :: compressFile_chunks rest.
Proof.
  intros Hl. unfold compressFile_chunks, ifstream_open.
  fold (good_stream (a ++ rest) 0). rewrite compressFile_loop_full by done.
  by rewrite compressFile_loop_acc.
Qed.

(** Induction over a file, one chunk at a time. *)
Lemma chunks_ind (P : buffer → list buffer → Prop) :
  P [] [] →
  (∀ c, 0 < length c < CHUNK_SIZE → P c [c]) →
  (∀ a rest cs, length a = CHUNK_SIZE → P rest cs → P (a ++ rest) (a :: cs)) →
  ∀ content, P content (compressFile_chunks content).
Proof.
  intros Hnil Hlast Hfull content.
  remember (length content) as n eqn:Hn. revert content Hn.
  induction (lt_wf n) as [n _ IH]. intros content ->.
  pose proof CHUNK_SIZE_pos.
  destruct (decide (length content < CHUNK_SIZE)) as [Hlt|Hge].
  - destruct (decide (content = [])) as [->|Hne].
    + by rewrite compressFile_chunks_nil.
    + assert (0 < length content) by (destruct content; [done | simpl; lia]).
      rewrite compressFile_chunks_last by lia. apply Hlast. lia.
  - assert (∃ a r, content = a ++ r ∧ length a = CHUNK_SIZE)
      as (a & r & -> & Hl).
    { exists (take CHUNK_SIZE content), (drop CHUNK_SIZE content).
      rewrite take_drop, length_take. split; [done | lia]. }
    rewrite compressFile_chunks_full by done.
    apply Hfull; [done|].
    apply (IH (length r)); [rewrite length_app; lia | done].
Qed.

End ChunkFacts.

(** ** Length fields *)

Lemma byte_of_N_to_N n : Byte.to_N (byte_of_N n) = (n mod 256)%N.
Proof.
  unfold byte_of_N. destruct (Byte.of_N (n mod 256)) eqn:E.
  - by apply Byte.to_of_N in E.
  - apply Byte.of_N_None_iff in E.
    pose proof (N.mod_lt n 256). lia.
Qed.

Lemma length_le_encode w n : length (le_encode w n) = w.
Proof. revert n. induction w as [|w IH]; intros n; simpl; [done|]. by rewrite IH. Qed.

Lemma le_decode_encode w n :
  (n < 256 ^ N.of_nat w)%N → le_decode (le_encode w n) = n.
Proof.
  revert n. induction w as [|w IH]; intros n Hn.
  - simpl in *. lia.
  - cbn [le_encode le_decode]. rewrite byte_of_N_to_N, IH.
    + pose proof (N.div_mod n 256). lia.
    + rewrite Nat2N.inj_succ, N.pow_succ_r' in Hn.
      apply N.Div0.div_lt_upper_bound; lia.
Qed.

Lemma le_decode_bound bs : (le_decode bs < 256 ^ N.of_nat (length bs))%N.
Proof.
  induction bs as [|b bs IH]; [simpl; lia|].
  cbn [le_decode length]. rewrite Nat2N.inj_succ, N.pow_succ_r'.
  pose proof (Byte.to_N_bounded b). lia.
Qed.

(** ** The reading loop of [decompressFile] *)

Section RecordFacts.
Context {platform : Platform}.

Lemma decompressFile_loop_eq inFile threads :
  decompressFile_loop inFile threads =
  if eofbit inFile then (threads, None)
  else
    let '(raw, inFile1) := istream_read sizeof_uLong inFile in
    if eofbit inFile1 then (threads, None)
    else
      let '(compressedBuffer, inFile2) :=
        istream_read (N.to_nat (le_decode raw)) inFile1 in
      if (N.of_nat (gcount inFile2) =? le_decode raw)%N
      then decompressFile_loop inFile2 (threads ++ [compressedBuffer])
      else (threads, Some Corrupted_compressed_file).
Proof.
  funelim (decompressFile_loop inFile threads);
    rewrite He, ?Hr1; cbn zeta beta iota; rewrite ?He1, ?Hr2;
    cbn zeta beta iota; rewrite ?Hc; reflexivity.
Qed.

Lemma decompressFile_loop_eof inFile threads :
  eofbit inFile = true → decompressFile_loop inFile threads = (threads, None).
Proof. intros He. by rewrite decompressFile_loop_eq, He. Qed.

(** Fewer bytes than a length field are left: the loop ends. *)
Lemma decompressFile_loop_end frag g threads :
  length frag < sizeof_uLong →
  decompressFile_loop (good_stream frag g) threads = (threads, None).
Proof.
  intros Hl. rewrite decompressFile_loop_eq. cbn [eofbit good_stream].
  by rewrite (istream_read_short _ frag g).
Qed.

(** A length field followed by the rest of the file. *)
Lemma decompressFile_loop_field field rest g threads :
  length field = sizeof_uLong →
  decompressFile_loop (good_stream (field ++ rest) g) threads =
  if decide (N.to_nat (le_decode field) ≤ length rest)
  then decompressFile_loop
         (good_stream (drop (N.to_nat (le_decode field)) rest)
                      (N.to_nat (le_decode field)))
         (threads ++ [take (N.to_nat (le_decode field)) rest])
  else (threads, Some Corrupted_compressed_file).
Proof.
  intros Hl. rewrite decompressFile_loop_eq. cbn [eofbit good_stream].
  rewrite (istream_read_good _ (field ++ rest) g) by (rewrite length_app; lia).
  rewrite <- Hl, take_app_length, drop_app_length.
  cbn [eofbit good_stream]. fold (good_stream rest (length field)).
  case_decide as Hd.
  - rewrite istream_read_good by done. cbn [gcount good_stream].
    by rewrite N2Nat.id, N.eqb_refl.
  - rewrite istream_read_short by lia. cbn [gcount].
    destruct (N.eqb_spec (N.of_nat (length rest)) (le_decode field)); [lia|done].
Qed.

Lemma decompressFile_loop_gcount rest g g' threads :
  decompressFile_loop (good_stream rest g) threads =
  decompressFile_loop (good_stream rest g') threads.
Proof.
  rewrite (decompressFile_loop_eq (good_stream rest g)),
    (decompressFile_loop_eq (good_stream rest g')).
  reflexivity.
Qed.

Lemma decompressFile_loop_record payload rest g threads :
  (N.of_nat (length payload) < uLong_max_succ)%N →
  decompressFile_loop (good_stream (record payload ++ rest) g) threads =
  decompressFile_loop (good_stream rest 0) (threads ++ [payload]).
Proof.
  intros Hn. unfold record. rewrite <- app_assoc.
  rewrite decompressFile_loop_field by apply length_le_encode.
  rewrite le_decode_encode by done. rewrite Nat2N.id.
  rewrite decide_True by (rewrite length_app; lia).
  rewrite take_app_length, drop_app_length.
  apply decompressFile_loop_gcount.
Qed.

Lemma decompressFile_loop_records payloads rest g threads :
  Forall (λ p, (N.of_nat (length p) < uLong_max_succ)%N) payloads →
  decompressFile_loop
    (good_stream (concat (record <$> payloads) ++ rest) g) threads =
  decompressFile_loop (good_stream rest 0) (threads ++ payloads).
Proof.
  intros Hall. revert g threads.
  induction Hall as [|p ps Hp _ IH]; intros g threads.
  - rewrite app_nil_r. apply decompressFile_loop_gcount.
  - cbn [fmap list_fmap concat]. rewrite <- app_assoc.
    rewrite decompressFile_loop_record by done.
    rewrite IH. by rewrite <- app_assoc.
Qed.

(** A length field that announces more bytes than the file has left. *)
Lemma decompressFile_loop_truncated n partial g threads :
  (n < uLong_max_succ)%N → length partial < N.to_nat n →
  decompressFile_loop
    (good_stream (le_encode sizeof_uLong n ++ partial) g) threads =
  (threads, Some Corrupted_compressed_file).
Proof.
  intros Hn Hl.
  rewrite decompressFile_loop_field by apply length_le_encode.
  rewrite le_decode_encode by done. rewrite decide_False; [done | lia].
Qed.

End RecordFacts.

(** ** Runs of the pool and schedules *)

Section PoolFacts.
Variable job : buffer → res buffer.

Lemma run_workers_app bufs s1 s2 m :
  run_workers job bufs (s1 ++ s2) m =
  run_workers job bufs s2 (run_workers job bufs s1 m).
Proof. apply foldl_app. Qed.

Lemma commits_app tr1 tr2 : commits (tr1 ++ tr2) = commits tr1 ++ commits tr2.
Proof. apply omap_app. Qed.

Lemma pool_steps_one p e p' : pool_step job p e p' → pool_steps job p [e] p'.
Proof. intros Hs. apply (steps_more job p [] p e p'); [constructor | done]. Qed.

Lemma pool_steps_trans p tr1 p1 tr2 p2 :
  pool_steps job p tr1 p1 → pool_steps job p1 tr2 p2 →
  pool_steps job p (tr1 ++ tr2) p2.
Proof.
  intros H1 H2. induction H2 as [|tr2 p2 e p3 _ IH Hs].
  - by rewrite app_nil_r.
  - rewrite app_assoc. by eapply steps_more.
Qed.

Lemma pool_steps_cons p e p1 tr p2 :
  pool_step job p e p1 → pool_steps job p1 tr p2 →
  pool_steps job p (e :: tr) p2.
Proof.
  intros Hs Hr. apply (pool_steps_trans p [e] p1 tr p2); [|done].
  by apply pool_steps_one.
Qed.

Lemma pool_steps_inv bufs tr p :
  pool_steps job (pool_init bufs) tr p → pool_inv job bufs tr p.
Proof.
  induction 1 as [|tr p1 e p2 _ IH Hs].
  - repeat split; simpl; try done.
    + apply NoDup_nil_2.
    + by intros ?%elem_of_nil.
    + by intros (t & ? & _).
  - destruct IH as (Hb & Hm & Hnd & Hin).
    destruct Hs as [b q ts m|q ts m i b Hi|ts m i b Hi Hbefore];
      unfold pool_inv; simpl in *; rewrite commits_app; simpl;
      rewrite ?app_nil_r.
    + split_and!; [by rewrite fmap_app, <- app_assoc | done | done |].
      intros j. rewrite Hin. split.
      * intros (t & Ht & Hr). exists t. split; [|done].
        by apply lookup_app_l_Some.
      * intros (t & Ht & Hr).
        apply lookup_app_Some in Ht as [Ht|[_ Ht]]; [by exists t|].
        apply list_lookup_singleton_Some in Ht as [_ <-]. done.
    + assert (bufs !! i = Some b) as Hbi.
      { rewrite <- Hb. apply lookup_app_l_Some.
        by rewrite list_lookup_fmap, Hi. }
      assert (i ∉ commits tr) as Hni.
      { intros Hc. apply Hin in Hc as (t & Ht & Hr).
        rewrite Hi in Ht. injection Ht as <-. by apply Hr. }
      split_and!.
      * rewrite list_fmap_insert. simpl.
        rewrite list_insert_id; [done|]. by rewrite list_lookup_fmap, Hi.
      * rewrite run_workers_app, <- Hm. simpl. by rewrite Hbi.
      * apply NoDup_app. split_and!; [done| |apply NoDup_singleton].
        intros j Hj ->%list_elem_of_singleton. done.
      * intros j. rewrite elem_of_app, list_elem_of_singleton, Hin.
        destruct (decide (j = i)) as [->|Hne].
        -- split; [|by right]. intros _. exists (b, Finished).
           split; [|done]. apply list_lookup_insert_eq.
           by eapply lookup_lt_Some.
        -- rewrite list_lookup_insert_ne by done.
           split; [intros [?|?]; done | by left].
    + rewrite app_nil_r in Hb. split_and!.
      * rewrite list_fmap_insert. simpl.
        rewrite list_insert_id; [done|]. by rewrite list_lookup_fmap, Hi.
      * done.
      * done.
      * intros j. rewrite Hin.
        destruct (decide (j = i)) as [->|Hne].
        -- rewrite list_lookup_insert_eq by (by eapply lookup_lt_Some).
           split; intros _; [by exists (b, Joined)|by exists (b, Finished)].
        -- by rewrite list_lookup_insert_ne.
Qed.

(** After the join loop the workers have gone through their critical
    sections in some order, each of them once. *)
Lemma pool_joined_schedule bufs tr p :
  pool_steps job (pool_init bufs) tr p → pool_joined p →
  schedule (length bufs) (commits tr)
  ∧ mem p = run_workers job bufs (commits tr) shared_init.
Proof.
  intros (Hb & Hm & Hnd & Hin)%pool_steps_inv [Hq Hj]. split; [|done].
  rewrite Hq, app_nil_r in Hb.
  assert (length (threads p) = length bufs) as Hlen
    by (by rewrite <- Hb, length_fmap).
  apply NoDup_Permutation; [done | apply NoDup_seq|].
  intros i. rewrite elem_of_seq, Hin. split.
  - intros (t & Ht%lookup_lt_Some & _). lia.
  - intros [_ Hi]. simpl in Hi. rewrite <- Hlen in Hi.
    apply lookup_lt_is_Some in Hi as [t Ht]. exists t. split; [done|].
    rewrite Forall_lookup in Hj. by rewrite (Hj _ _ Ht).
Qed.

End PoolFacts.

Section ScheduleFacts.
Variable job : buffer → res buffer.

(** The reading loop can get through the whole file before any worker
    reaches its critical section. *)
Lemma launch_steps q ts m :
  pool_steps job {| queue := q; threads := ts; mem := m |}
    (replicate (length q) Launch)
    {| queue := []; threads := ts ++ ((λ b, (b, Running)) <$> q); mem := m |}.
Proof.
  revert ts. induction q as [|b q IH]; intros ts; simpl.
  - rewrite app_nil_r. constructor.
  - eapply pool_steps_cons; [apply step_launch|].
    specialize (IH (ts ++ [(b, Running)])).
    by rewrite <- app_assoc in IH.
Qed.

Lemma commit_steps bufs sched : ∀ ts m,
  NoDup sched →
  (∀ i, i ∈ sched → ∃ b, ts !! i = Some (b, Running) ∧ bufs !! i = Some b) →
  ∃ ts',
    pool_steps job {| queue := []; threads := ts; mem := m |}
      (Commit <$> sched)
      {| queue := []; threads := ts'; mem := run_workers job bufs sched m |}
    ∧ length ts' = length ts
    ∧ (∀ i, i ∈ sched → ∃ b, ts' !! i = Some (b, Finished))
    ∧ (∀ i, i ∉ sched → ts' !! i = ts !! i).
Proof.
  induction sched as [|i sched IH]; intros ts m Hnd Hrun.
  - exists ts. split_and!; [constructor | done | | done].
    by intros i ?%elem_of_nil.
  - apply NoDup_cons in Hnd as [Hi Hnd].
    destruct (Hrun i) as (b & Hti & Hbi); [by left|].
    destruct (IH (<[i := (b, Finished)]> ts) (worker job i b m) Hnd)
      as (ts' & Hsteps & Hlen & Hfin & Hsame).
    { intros j Hj. destruct (Hrun j) as (bj & ? & ?); [by right|].
      exists bj. split; [|done].
      rewrite list_lookup_insert_ne; [done|]. by intros ->. }
    exists ts'. split_and!.
    + simpl. rewrite Hbi.
      eapply pool_steps_cons; [by apply step_commit | done].
    + by rewrite Hlen, length_insert.
    + intros j [->|Hj]%elem_of_cons; [|by apply Hfin].
      exists b. rewrite Hsame by done.
      apply list_lookup_insert_eq. by eapply lookup_lt_Some.
    + intros j Hj%not_elem_of_cons. destruct Hj as [Hne Hj].
      rewrite Hsame by done. by rewrite list_lookup_insert_ne.
Qed.

Lemma join_steps ts : ∀ pre m,
  Forall (λ t, t.2 = Joined) pre → Forall (λ t, t.2 = Finished) ts →
  ∃ tr ts',
    pool_steps job {| queue := []; threads := pre ++ ts; mem := m |} tr
      {| queue := []; threads := ts'; mem := m |}
    ∧ Forall (λ t, t.2 = Joined) ts'.
Proof.
  induction ts as [|[b st] ts IH]; intros pre m Hpre Hts.
  - exists [], pre. rewrite app_nil_r. split; [constructor | done].
  - apply Forall_cons in Hts as [Hst Hts]. simpl in Hst. subst st.
    destruct (IH (pre ++ [(b, Joined)]) m) as (tr & ts' & Hsteps & Hj);
      [apply Forall_app; split; [done | by apply Forall_singleton] | done |].
    exists (Join (length pre) :: tr), ts'. split; [|done].
    eapply pool_steps_cons; [|].
    + apply (step_join job (pre ++ (b, Finished) :: ts) m (length pre) b).
      * by rewrite lookup_app_r, Nat.sub_diag.
      * intros j t Hlt Ht. rewrite lookup_app_l in Ht by done.
        rewrite Forall_lookup in Hpre. by apply (Hpre j).
    + replace (<[length pre := (b, Joined)]> (pre ++ (b, Finished) :: ts))
        with ((pre ++ [(b, Joined)]) ++ ts); [done|].
      rewrite insert_app_r_alt, Nat.sub_diag by done. simpl.
      by rewrite <- app_assoc.
Qed.

(** Every order of the critical sections is the order of a run. *)
Lemma schedule_pool_result bufs sched :
  schedule (length bufs) sched →
  pool_result job bufs (run_workers job bufs sched shared_init).
Proof.
  intros Hs. unfold schedule in Hs.
  pose proof (launch_steps bufs [] shared_init) as H1. simpl in H1.
  destruct (commit_steps bufs sched ((λ b, (b, Running)) <$> bufs) shared_init)
    as (ts & H2 & Hlen & Hfin & _).
  { rewrite Hs. apply NoDup_seq. }
  { intros i Hi. rewrite Hs, elem_of_seq in Hi.
    destruct (lookup_lt_is_Some_2 bufs i) as [b Hb]; [lia|].
    exists b. by rewrite list_lookup_fmap, Hb. }
  destruct (join_steps ts [] (run_workers job bufs sched shared_init))
    as (tr & ts' & H3 & Hj); [done| |].
  { apply Forall_lookup. intros i t Ht.
    destruct (Hfin i) as (b & Hb).
    - rewrite Hs, elem_of_seq. apply lookup_lt_Some in Ht.
      rewrite Hlen, length_fmap in Ht. lia.
    - rewrite Hb in Ht. by injection Ht as <-. }
  exists (replicate (length bufs) Launch ++ (Commit <$> sched) ++ tr),
    {| queue := []; threads := ts';
       mem := run_workers job bufs sched shared_init |}.
  split_and!; [|by split|done].
  eapply pool_steps_trans; [apply H1|].
  eapply pool_steps_trans; [apply H2 | apply H3].
Qed.

(** The states after the join loop are those the schedules give. *)
Lemma pool_result_schedule bufs m :
  pool_result job bufs m ↔
  ∃ sched, schedule (length bufs) sched
           ∧ m = run_workers job bufs sched shared_init.
Proof.
  split.
  - intros (tr & p & Hsteps & Hj & <-).
    exists (commits tr). by eapply pool_joined_schedule.
  - intros (sched & Hs & ->). by apply schedule_pool_result.
Qed.

Lemma running_all (bufs : list buffer) :
  length (filter (λ t : buffer * thread_state, t.2 = Running)
            ((λ b, (b, Running)) <$> bufs)) = length bufs.
Proof.
  induction bufs as [|b bufs IH]; [done|].
  rewrite fmap_cons, filter_cons_True by done. simpl. by rewrite IH.
Qed.

End ScheduleFacts.

(** ** The reference codec satisfies the laws of zlib *)

Lemma length_store_deflate d : length (store_deflate d) = length d + 6.
Proof. unfold store_deflate. rewrite !length_app. simpl. lia. Qed.

Lemma store_inflate_deflate d : store_inflate (store_deflate d) = Some d.
Proof.
  unfold store_inflate. rewrite length_store_deflate.
  replace (length d + 6 - 6) with (length d) by lia.
  replace (length d + 6 - 4) with (2 + length d) by lia.
  unfold store_deflate. cbn [app drop take Nat.add].
  rewrite take_0, drop_0, take_app_length, drop_app_length.
  rewrite decide_True; [done|]. split_and!; [lia | done | done].
Qed.

Lemma store_inflate_min_length z d : store_inflate z = Some d → 6 ≤ length z.
Proof. unfold store_inflate. case_decide; [tauto | done]. Qed.

Lemma store_deflate_bound d :
  length (store_deflate d) ≤ compressBound (length d).
Proof.
  rewrite length_store_deflate. unfold compressBound. cbv zeta.
  zify. Z.to_euclidean_division_equations. lia.
Qed.

Definition store_codec : Zlib :=
  {| deflate := store_deflate;
     inflate := store_inflate;
     inflate_deflate := store_inflate_deflate;
     inflate_min_length := store_inflate_min_length;
     deflate_bound := store_deflate_bound |}.

(** ** The block functions *)

Section BlockFacts.
Context {zlib : Zlib}.

Lemma deflate_min_length d : 6 ≤ length (deflate d).
Proof. eapply inflate_min_length, inflate_deflate. Qed.

Lemma deflate_inj d1 d2 : deflate d1 = deflate d2 → d1 = d2.
Proof.
  intros Heq. pose proof (inflate_deflate d1) as H1.
  rewrite Heq, inflate_deflate in H1. by injection H1.
Qed.

Lemma compressBlock_fits data :
  data ≠ [] → length (deflate data) ≤ length data * 2 →
  compressBlock data = Val (deflate data).
Proof.
  intros Hne Hfit. destruct data as [|b data]; [done|].
  unfold compressBlock, compress. by rewrite decide_True.
Qed.

Lemma compressBlock_overflow data :
  data ≠ [] → length data * 2 < length (deflate data) →
  compressBlock data = Exn Compression_error.
Proof.
  intros Hne Hfit. destruct data as [|b data]; [done|].
  unfold compressBlock, compress. rewrite decide_False; [done | lia].
Qed.

Lemma compressBound_chunk n :
  13 ≤ n ≤ CHUNK_SIZE → compressBound n ≤ n * 2.
Proof.
  pose proof CHUNK_SIZE_val. unfold compressBound.
  intros Hn. cbv zeta. zify. Z.to_euclidean_division_equations. lia.
Qed.

(** A chunk of 13 bytes or more is always compressed. *)
Lemma compressBlock_chunk data :
  13 ≤ length data ≤ CHUNK_SIZE → compressBlock data = Val (deflate data).
Proof.
  intros Hl. apply compressBlock_fits.
  - intros ->. simpl in Hl. lia.
  - pose proof (deflate_bound data). pose proof (compressBound_chunk _ Hl). lia.
Qed.

Lemma decompressBlock_inflate payload d originalSize :
  inflate payload = Some d →
  decompressBlock payload originalSize =
  if decide (length d ≤ originalSize) then Val d else Exn Decompression_error.
Proof.
  intros Hi. pose proof (inflate_min_length _ _ Hi) as Hl.
  destruct payload as [|b payload]; [simpl in Hl; lia|].
  unfold decompressBlock, uncompress. rewrite Hi. by case_decide.
Qed.

Lemma decompressBlock_corrupt payload originalSize :
  payload ≠ [] → inflate payload = None →
  decompressBlock payload originalSize = Exn Decompression_error.
Proof.
  intros Hne Hi. destruct payload as [|b payload]; [done|].
  unfold decompressBlock, uncompress. by rewrite Hi.
Qed.

End BlockFacts.

(** ** What the workers leave in the shared objects *)

Lemma omap_cons {A B} (f : A → option B) x l :
  omap f (x :: l) =
  match f x with Some y => y :: omap f l | None => omap f l end.
Proof. done. Qed.

Section WorkerFacts.
Variable job : buffer → res buffer.

Lemma run_workers_chunks bufs sched m :
  chunks (run_workers job bufs sched m) = chunks m ++ successes job bufs sched.
Proof.
  induction sched as [|i sched IH] using rev_ind.
  - simpl. by rewrite app_nil_r.
  - rewrite run_workers_app. unfold successes. rewrite omap_app. simpl.
    fold (successes job bufs sched).
    destruct (bufs !! i) as [b|]; [|by rewrite app_nil_r].
    unfold worker. destruct (job b); simpl; rewrite IH.
    + by rewrite app_assoc.
    + by rewrite app_nil_r.
Qed.

Lemma run_workers_exception bufs sched m :
  threadException (run_workers job bufs sched m) =
  match last (failures job bufs sched) with
  | Some e => Some e
  | None => threadException m
  end.
Proof.
  induction sched as [|i sched IH] using rev_ind; [done|].
  rewrite run_workers_app. unfold failures. rewrite omap_app. simpl.
  fold (failures job bufs sched).
  destruct (bufs !! i) as [b|]; [|by rewrite app_nil_r].
  unfold worker. destruct (job b); simpl.
  - by rewrite app_nil_r.
  - by rewrite last_snoc.
Qed.

(** A schedule runs every worker once. *)
Lemma failures_schedule bufs sched i b e :
  schedule (length bufs) sched → bufs !! i = Some b → job b = Exn e →
  {| thrower := Worker i; what := e |} ∈ failures job bufs sched.
Proof.
  intros Hs Hb He. unfold failures. apply list_elem_of_omap.
  exists i. rewrite Hb, He. split; [|done].
  rewrite Hs, elem_of_seq. apply lookup_lt_Some in Hb. lia.
Qed.

Lemma successes_all bufs sched :
  Forall (λ b, ∃ out, job b = Val out) bufs → failures job bufs sched = [].
Proof.
  intros Hall. destruct (failures job bufs sched) as [|e l] eqn:E; [done|].
  assert (e ∈ failures job bufs sched) as Hin by (rewrite E; left).
  apply list_elem_of_omap in Hin as (i & _ & Hi).
  destruct (bufs !! i) as [b|] eqn:Hb; [|done].
  rewrite Forall_lookup in Hall. destruct (Hall _ _ Hb) as [out Ho].
  by rewrite Ho in Hi.
Qed.

Lemma successes_from pre bufs outs :
  Forall2 (λ b out, job b = Val out) bufs outs →
  successes job (pre ++ bufs) (seq (length pre) (length bufs)) = outs.
Proof.
  intros Hall. revert pre.
  induction Hall as [|b out bufs outs Hb _ IH]; intros pre; [done|].
  unfold successes. cbn [length seq]. rewrite omap_cons. cbv beta.
  rewrite lookup_app_r, Nat.sub_diag by done. cbn [lookup list_lookup].
  rewrite Hb. f_equal.
  specialize (IH (pre ++ [b])).
  rewrite length_app, Nat.add_1_r, <- app_assoc in IH. apply IH.
Qed.

(** Workers that go through their critical sections in launch order. *)
Lemma successes_in_order bufs outs :
  Forall2 (λ b out, job b = Val out) bufs outs →
  successes job bufs (seq 0 (length bufs)) = outs.
Proof. apply (successes_from []). Qed.

End WorkerFacts.

(** ** The two file operations under a schedule *)

Section FileFacts.
Context {platform : Platform} {zlib : Zlib}.

Lemma compressFile_finish_run job bufs sched :
  compressFile_finish (run_workers job bufs sched shared_init) =
  match last (failures job bufs sched) with
  | Some e => {| written := magic; result_of := Thrown e |}
  | None =>
      {| written := magic ++ concat (record <$> successes job bufs sched);
         result_of := Returned |}
  end.
Proof.
  unfold compressFile_finish.
  rewrite run_workers_exception, run_workers_chunks.
  by destruct (last _).
Qed.

Lemma decompressFile_finish_run job bufs sched :
  decompressFile_finish (run_workers job bufs sched shared_init) =
  match last (failures job bufs sched) with
  | Some e => {| written := []; result_of := Thrown e |}
  | None =>
      {| written := concat (successes job bufs sched); result_of := Returned |}
  end.
Proof.
  unfold decompressFile_finish.
  rewrite run_workers_exception, run_workers_chunks.
  by destruct (last _).
Qed.

Lemma compressFile_runs_schedule content o :
  compressFile_runs (Some content) true o ↔
  ∃ sched, schedule (length (compressFile_chunks content)) sched
           ∧ o = compressFile sched (Some content) true.
Proof.
  unfold compressFile_runs, compressFile. split.
  - intros (m & (sched & Hs & ->)%pool_result_schedule & ->). by exists sched.
  - intros (sched & Hs & ->). eexists. split; [|done].
    apply pool_result_schedule. by exists sched.
Qed.

Lemma read_header_magic header0 body :
  read_header header0 (magic ++ body) = (magic, good_stream body 4).
Proof.
  unfold read_header. change (ifstream_open (magic ++ body))
    with (good_stream (magic ++ body) 0).
  rewrite istream_read_good by (rewrite length_app; simpl; lia).
  done.
Qed.

Lemma decompressFile_records_magic header0 body :
  decompressFile_records header0 (magic ++ body) =
  decompressFile_loop (good_stream body 4) [].
Proof. unfold decompressFile_records. by rewrite read_header_magic. Qed.

Lemma decompressFile_valid sched header0 body bufs :
  decompressFile_loop (good_stream body 4) [] = (bufs, None) →
  decompressFile sched header0 (Some (magic ++ body)) true =
  decompressFile_finish (run_workers decompress_job bufs sched shared_init).
Proof.
  intros Hl. unfold decompressFile.
  rewrite read_header_magic, decide_True by done.
  by rewrite decompressFile_records_magic, Hl.
Qed.

Lemma decompressFile_runs_valid header0 body bufs o :
  decompressFile_loop (good_stream body 4) [] = (bufs, None) →
  decompressFile_runs header0 (Some (magic ++ body)) true o ↔
  ∃ sched, schedule (length bufs) sched
           ∧ o = decompressFile_finish
                   (run_workers decompress_job bufs sched shared_init).
Proof.
  intros Hl. unfold decompressFile_runs.
  rewrite read_header_magic, decide_True by done.
  rewrite decompressFile_records_magic, Hl. split.
  - intros (m & (sched & Hs & ->)%pool_result_schedule & ->). by exists sched.
  - intros (sched & Hs & ->). eexists. split; [|done].
    apply pool_result_schedule. by exists sched.
Qed.

Lemma decompressFile_runs_thrown header0 body bufs e o :
  decompressFile_loop (good_stream body 4) [] = (bufs, Some e) →
  decompressFile_runs header0 (Some (magic ++ body)) true o ↔
  o = loop_exception bufs e.
Proof.
  intros Hl. unfold decompressFile_runs.
  rewrite read_header_magic, decide_True by done.
  by rewrite decompressFile_records_magic, Hl.
Qed.

(** A well-formed file: the header, then complete records. *)
Lemma decompressFile_loop_wellformed payloads frag g :
  Forall (λ p, (N.of_nat (length p) < uLong_max_succ)%N) payloads →
  length frag < sizeof_uLong →
  decompressFile_loop
    (good_stream (concat (record <$> payloads) ++ frag) g) [] =
  (payloads, None).
Proof.
  intros Hall Hf. rewrite decompressFile_loop_records by done.
  by rewrite decompressFile_loop_end.
Qed.

End FileFacts.

(** ** Shared facts about chunks, records and failures *)

Lemma compressFile_chunks_concat (content : buffer) :
  concat (compressFile_chunks content) = content.
Proof.
  apply (chunks_ind (λ content cs, concat cs = content)).
  - done.
  - intros c _. simpl. by rewrite app_nil_r.
  - intros a rest cs _ Hcat. simpl. by rewrite Hcat.
Qed.

Lemma compressFile_chunks_bound (content : buffer) :
  Forall (λ c, 0 < length c ≤ CHUNK_SIZE) (compressFile_chunks content).
Proof.
  pose proof CHUNK_SIZE_pos.
  apply (chunks_ind (λ _ cs, Forall (λ c, 0 < length c ≤ CHUNK_SIZE) cs)).
  - constructor.
  - intros c Hc. apply Forall_singleton. lia.
  - intros a rest cs Ha Hall. constructor; [lia | done].
Qed.

Lemma length_concat_le (cs : list buffer) k :
  Forall (λ c, length c ≤ k) cs → length (concat cs) ≤ length cs * k.
Proof.
  induction 1 as [|c cs Hc _ IH]; [done|].
  simpl. rewrite length_app. lia.
Qed.

Lemma compressFile_chunks_count (content : buffer) :
  length content ≤ length (compressFile_chunks content) * CHUNK_SIZE.
Proof.
  rewrite <- (compressFile_chunks_concat content) at 1.
  apply length_concat_le.
  eapply Forall_impl; [apply compressFile_chunks_bound|].
  intros c Hc. simpl in Hc. lia.
Qed.

Lemma compressFile_chunks_two a b :
  length a = CHUNK_SIZE → length b = CHUNK_SIZE →
  compressFile_chunks (a ++ b) = [a; b].
Proof.
  intros Ha Hb. rewrite compressFile_chunks_full by done.
  rewrite <- (app_nil_r b) at 1.
  by rewrite compressFile_chunks_full, compressFile_chunks_nil.
Qed.

Lemma failures_thrower job bufs sched e :
  e ∈ failures job bufs sched → ∃ i, thrower e = Worker i.
Proof.
  intros (i & _ & Hi)%list_elem_of_omap.
  destruct (bufs !! i) as [b|]; [|done].
  destruct (job b); [done|]. injection Hi as <-. by exists i.
Qed.

Section RecordInj.
Context {platform : Platform} {zlib : Zlib}.

Lemma uLong_max_succ_ge : (4294967296 ≤ uLong_max_succ)%N.
Proof.
  unfold uLong_max_succ. pose proof sizeof_uLong_ge as Hw.
  change 4294967296%N with (256 ^ 4)%N.
  apply N.pow_le_mono_r; lia.
Qed.

(** What [compressBlock] returns for a chunk fits a length field. *)
Lemma deflate_chunk_fits c :
  length c ≤ CHUNK_SIZE →
  (N.of_nat (length (deflate c)) < uLong_max_succ)%N.
Proof.
  intros Hc. pose proof (deflate_bound c) as Hb.
  pose proof uLong_max_succ_ge. pose proof CHUNK_SIZE_val.
  unfold compressBound in Hb. cbv zeta in Hb.
  zify. Z.to_euclidean_division_equations. lia.
Qed.

Lemma record_app_inj x y r1 r2 :
  (N.of_nat (length x) < uLong_max_succ)%N →
  (N.of_nat (length y) < uLong_max_succ)%N →
  record x ++ r1 = record y ++ r2 → x = y.
Proof.
  intros Hx Hy Heq. unfold record in Heq. rewrite <- !app_assoc in Heq.
  apply app_inj_1 in Heq as [Hlen Heq]; [|by rewrite !length_le_encode].
  apply (f_equal le_decode) in Hlen.
  rewrite !le_decode_encode in Hlen by done.
  apply Nat2N.inj in Hlen.
  by apply app_inj_1 in Heq as [-> _].
Qed.

Lemma decompress_job_deflate c :
  length c ≤ CHUNK_SIZE → decompress_job (deflate c) = Val c.
Proof.
  intros Hc. unfold decompress_job.
  rewrite (decompressBlock_inflate _ c) by apply inflate_deflate.
  by rewrite decide_True.
Qed.

End RecordInj.

(** * The claims *)

(** ** The chunk splitter *)

(** C7: the reading loop of [compressFile] splits every input into an
    ordered, finite sequence of chunks whose concatenation is the input:
    every chunk but the last has exactly [CHUNK_SIZE] bytes, the last one
    may be shorter, and no chunk is empty. The loop is a total function:
    it ends at the end of the stream. *)
Theorem chunk_splitter_sizes (content : buffer) :
  concat (compressFile_chunks content) = content
  ∧ Forall (λ c, 0 < length c ≤ CHUNK_SIZE) (compressFile_chunks content)
  ∧ ∀ i c, compressFile_chunks content !! i = Some c →
           S i < length (compressFile_chunks content) →
           length c = CHUNK_SIZE.
Proof.
  split_and!;
    [apply compressFile_chunks_concat | apply compressFile_chunks_bound |].
  apply (chunks_ind (λ _ cs,
    ∀ i c, cs !! i = Some c → S i < length cs → length c = CHUNK_SIZE)).
  - intros i c Hi. by destruct i.
  - intros c _ i c' _ Hi. simpl in Hi. lia.
  - intros a rest cs Ha Hfull [|i] c Hi Hlen; simpl in *.
    + by injection Hi as <-.
    + apply (Hfull i); [done | lia].
Qed.

(** ** The block codec *)

Section BlockClaims.
Context {zlib : Zlib}.

(** C9: [decompressBlock] succeeds whenever [originalSize] is at least
    the true decompressed size of the payload and returns exactly the
    decompressed bytes; so the call of [decompressFile], which always
    passes [CHUNK_SIZE], decodes every chunk of at most [CHUNK_SIZE]
    bytes, a shorter final chunk included. *)
Theorem decompressBlock_generous_size payload d originalSize :
  inflate payload = Some d →
  length d ≤ originalSize →
  decompressBlock payload originalSize = Val d
  ∧ (length d ≤ CHUNK_SIZE → decompress_job payload = Val d).
Proof.
  intros Hi Hl. split.
  - rewrite (decompressBlock_inflate _ _ _ Hi). by rewrite decide_True.
  - intros Hc. unfold decompress_job.
    rewrite (decompressBlock_inflate _ _ _ Hi). by rewrite decide_True.
Qed.

(** C5 (as the code has it): the worker of [decompressFile] calls
    [decompressBlock] with the constant [CHUNK_SIZE], and
    [decompressBlock] throws exactly when [originalSize] is smaller than
    the true decompressed size; a larger [originalSize] is accepted and
    the true bytes are returned. *)
Theorem decompressBlock_size_mismatch payload d originalSize :
  inflate payload = Some d →
  decompress_job payload = decompressBlock payload CHUNK_SIZE
  ∧ (decompressBlock payload originalSize = Exn Decompression_error
     ↔ originalSize < length d)
  ∧ (decompressBlock payload originalSize = Val d
     ↔ length d ≤ originalSize).
Proof.
  intros Hi. split; [done|].
  rewrite (decompressBlock_inflate _ _ _ Hi).
  case_decide; split; split; intros; (done || lia).
Qed.

End BlockClaims.

Lemma decompressBlock_generous_size_witness :
  @inflate store_codec (@deflate store_codec [x01; x02; x03])
    = Some [x01; x02; x03]
  ∧ length [x01; x02; x03] ≤ 5
  ∧ @decompressBlock store_codec (@deflate store_codec [x01; x02; x03]) 5
    = Val [x01; x02; x03]
  ∧ (length [x01; x02; x03] ≤ CHUNK_SIZE →
     @decompress_job store_codec (@deflate store_codec [x01; x02; x03])
     = Val [x01; x02; x03]).
Proof.
  split; [reflexivity|]. split; [simpl; lia|].
  apply (@decompressBlock_generous_size store_codec
           (@deflate store_codec [x01; x02; x03]) [x01; x02; x03] 5);
    [reflexivity | simpl; lia].
Defined.

Lemma decompressBlock_size_mismatch_witness :
  @inflate store_codec (@deflate store_codec [x01; x02; x03])
    = Some [x01; x02; x03]
  ∧ @decompress_job store_codec (@deflate store_codec [x01; x02; x03])
    = @decompressBlock store_codec (@deflate store_codec [x01; x02; x03])
        CHUNK_SIZE
  ∧ (@decompressBlock store_codec (@deflate store_codec [x01; x02; x03]) 2
     = Exn Decompression_error ↔ 2 < length [x01; x02; x03])
  ∧ (@decompressBlock store_codec (@deflate store_codec [x01; x02; x03]) 2
     = Val [x01; x02; x03] ↔ length [x01; x02; x03] ≤ 2).
Proof.
  split; [reflexivity|].
  apply (@decompressBlock_size_mismatch store_codec
           (@deflate store_codec [x01; x02; x03]) [x01; x02; x03] 2).
  reflexivity.
Defined.

(** C5 as stated fails: the worker passes [CHUNK_SIZE] for a chunk of
    one byte, a size that differs from the true one, and the call
    returns the byte instead of throwing. *)
Lemma decompress_job_accepts_larger_size :
  @decompress_job store_codec (@deflate store_codec [x00])
    = @decompressBlock store_codec (@deflate store_codec [x00]) CHUNK_SIZE
  ∧ CHUNK_SIZE ≠ length [x00]
  ∧ @decompress_job store_codec (@deflate store_codec [x00]) = Val [x00].
Proof.
  pose proof CHUNK_SIZE_val. split_and!; [done | simpl; lia |].
  unfold decompress_job.
  rewrite (@decompressBlock_inflate store_codec _ [x00]) by reflexivity.
  rewrite decide_True; [done | simpl; lia].
Qed.

(** ** Failures of the workers *)

Section FailureClaims.
Context {platform : Platform} {zlib : Zlib}.

Lemma failures_last_Some job bufs sched i b e :
  schedule (length bufs) sched → bufs !! i = Some b → job b = Exn e →
  ∃ e', last (failures job bufs sched) = Some e'.
Proof.
  intros Hs Hb He.
  pose proof (failures_schedule job bufs sched i b e Hs Hb He) as Hin.
  destruct (last (failures job bufs sched)) as [e'|] eqn:Hl; [by exists e'|].
  apply last_None in Hl. rewrite Hl in Hin. by apply elem_of_nil in Hin.
Qed.

(** C4 (what the code does): when a worker of [compressFile] fails, the
    call throws and the output file holds the header and no chunk
    record. When a worker of [decompressFile] fails, nothing is written
    to the output file; the call throws when its reading loop came to
    the end of the file, and when the reading loop threw on a truncated
    record, [std::terminate] is called instead. *)
Theorem worker_failure_discards_output header0 content o :
  (compressFile_runs (Some content) true o →
   (∃ c e, c ∈ compressFile_chunks content ∧ compressBlock c = Exn e) →
   written o = magic ∧ ∃ e, result_of o = Thrown e)
  ∧ (decompressFile_runs header0 (Some content) true o →
     (read_header header0 content).1 = magic →
     (∃ c e, c ∈ (decompressFile_records header0 content).1
             ∧ decompress_job c = Exn e) →
     written o = []
     ∧ match (decompressFile_records header0 content).2 with
       | None => ∃ e, result_of o = Thrown e
       | Some _ => result_of o = Terminated
       end).
Proof.
  split.
  - intros (sched & Hs & ->)%compressFile_runs_schedule
      (c & e & (i & Hi)%list_elem_of_lookup & He).
    unfold compressFile. rewrite compressFile_finish_run.
    destruct (failures_last_Some _ _ _ _ _ _ Hs Hi He) as [e' ->].
    split; [done | by exists e'].
  - unfold decompressFile_runs. intros Hrun Hm (c & e & Hc & He).
    rewrite decide_True in Hrun by done.
    destruct (decompressFile_records header0 content) as [bufs [e'|]];
      cbn [fst snd] in *.
    + subst o. destruct bufs as [|b bufs]; [|done].
      by apply elem_of_nil in Hc.
    + destruct Hrun as (m & (sched & Hs & ->)%pool_result_schedule & ->).
      apply list_elem_of_lookup in Hc as [i Hi].
      rewrite decompressFile_finish_run.
      destruct (failures_last_Some _ _ _ _ _ _ Hs Hi He) as [e'' ->].
      split; [done | by exists e''].
Qed.

(** C3 (as the code has it): every failing worker overwrites
    [threadException]. Every outcome of a call is that of a run in which
    all threads have been joined, and in every such run the call
    rethrows the exception that was caught last in that run, whatever
    was caught before it; it returns normally when no worker failed. *)
Theorem last_failure_is_rethrown header0 content :
  (∀ o, compressFile_runs (Some content) true o →
     ∃ tr p,
       pool_steps compressBlock (pool_init (compressFile_chunks content)) tr p
       ∧ pool_joined p ∧ o = compressFile_finish (mem p))
  ∧ (∀ tr p,
       pool_steps compressBlock (pool_init (compressFile_chunks content)) tr p →
       pool_joined p →
       compressFile_runs (Some content) true (compressFile_finish (mem p))
       ∧ result_of (compressFile_finish (mem p)) =
         match last (failures compressBlock (compressFile_chunks content)
                       (commits tr)) with
         | Some e => Thrown e
         | None => Returned
         end)
  ∧ ((read_header header0 content).1 = magic →
     (decompressFile_records header0 content).2 = None →
     (∀ o, decompressFile_runs header0 (Some content) true o →
        ∃ tr p,
          pool_steps decompress_job
            (pool_init (decompressFile_records header0 content).1) tr p
          ∧ pool_joined p ∧ o = decompressFile_finish (mem p))
     ∧ (∀ tr p,
          pool_steps decompress_job
            (pool_init (decompressFile_records header0 content).1) tr p →
          pool_joined p →
          decompressFile_runs header0 (Some content) true
            (decompressFile_finish (mem p))
          ∧ result_of (decompressFile_finish (mem p)) =
            match last (failures decompress_job
                          (decompressFile_records header0 content).1
                          (commits tr)) with
            | Some e => Thrown e
            | None => Returned
            end)).
Proof.
  split_and!.
  - intros o (m & (tr & p & Hsteps & Hj & <-) & ->). by exists tr, p.
  - intros tr p Hsteps Hj. split.
    + exists (mem p). split; [by exists tr, p | done].
    + destruct (pool_joined_schedule _ _ _ _ Hsteps Hj) as [_ ->].
      rewrite compressFile_finish_run. by destruct (last _).
  - intros Hm Hnone.
    assert (∀ o, decompressFile_runs header0 (Some content) true o ↔
                 ∃ m, pool_result decompress_job
                        (decompressFile_records header0 content).1 m
                      ∧ o = decompressFile_finish m) as Hruns.
    { intros o. unfold decompressFile_runs. rewrite decide_True by done.
      by destruct (decompressFile_records header0 content) as [bufs [e'|]]. }
    split.
    + intros o (m & (tr & p & Hsteps & Hj & <-) & ->)%Hruns. by exists tr, p.
    + intros tr p Hsteps Hj. split.
      * apply Hruns. exists (mem p). split; [by exists tr, p | done].
      * destruct (pool_joined_schedule _ _ _ _ Hsteps Hj) as [_ ->].
        rewrite decompressFile_finish_run. by destruct (last _).
Qed.

End FailureClaims.

(** Runs built from a schedule. *)
Lemma compressFile_runs_intro `{Platform, Zlib} sched content :
  schedule (length (compressFile_chunks content)) sched →
  compressFile_runs (Some content) true (compressFile sched (Some content) true).
Proof. intros Hs. apply compressFile_runs_schedule. by exists sched. Qed.

Lemma decompressFile_runs_intro `{Platform, Zlib} sched header0 body bufs :
  decompressFile_loop (good_stream body 4) [] = (bufs, None) →
  schedule (length bufs) sched →
  decompressFile_runs header0 (Some (magic ++ body)) true
    (decompressFile sched header0 (Some (magic ++ body)) true).
Proof.
  intros Hl Hs. apply (decompressFile_runs_valid _ _ bufs); [done|].
  exists sched. split; [done|]. by apply decompressFile_valid.
Qed.

Lemma worker_failure_discards_output_witness :
  let content := replicate CHUNK_SIZE x00 ++ [x2a] in
  let o1 := @compressFile LP64 store_codec [0; 1] (Some content) true in
  let file := magic ++ @record LP64 (@deflate store_codec [x07])
                    ++ @record LP64 [x00] in
  let o2 := @decompressFile LP64 store_codec [0; 1] [] (Some file) true in
  let cut := magic ++ @record LP64 [x00]
                   ++ le_encode (@sizeof_uLong LP64) 5 ++ [x01] in
  let o3 := @decompressFile LP64 store_codec [0] [] (Some cut) true in
  (@compressBlock store_codec (replicate CHUNK_SIZE x00)
     = Val (@deflate store_codec (replicate CHUNK_SIZE x00))
   ∧ @compressBlock store_codec [x2a] = Exn Compression_error
   ∧ @compressFile_runs LP64 store_codec (Some content) true o1
   ∧ written o1 = magic ∧ ∃ e, result_of o1 = Thrown e)
  ∧ (@decompress_job store_codec (@deflate store_codec [x07]) = Val [x07]
     ∧ @decompress_job store_codec [x00] = Exn Decompression_error
     ∧ @decompressFile_runs LP64 store_codec [] (Some file) true o2
     ∧ written o2 = [] ∧ ∃ e, result_of o2 = Thrown e)
  ∧ (@decompressFile_runs LP64 store_codec [] (Some cut) true o3
     ∧ written o3 = [] ∧ result_of o3 = Terminated).
Proof.
  intros content o1 file o2 cut o3. pose proof CHUNK_SIZE_val as Hc.
  assert (compressFile_chunks content = [replicate CHUNK_SIZE x00; [x2a]])
    as Hcs.
  { unfold content. rewrite compressFile_chunks_full by apply length_replicate.
    rewrite compressFile_chunks_last; [done | simpl; lia]. }
  assert (@compressFile_runs LP64 store_codec (Some content) true o1) as Hrun1.
  { apply (@compressFile_runs_intro LP64 store_codec). rewrite Hcs.
    unfold schedule. reflexivity. }
  assert (@decompressFile_records LP64 [] file
          = ([@deflate store_codec [x07]; [x00]], None)) as Hrec2
    by (vm_compute; reflexivity).
  assert (@decompressFile_runs LP64 store_codec [] (Some file) true o2)
    as Hrun2.
  { apply (@decompressFile_runs_intro LP64 store_codec [0; 1] []
             (@record LP64 (@deflate store_codec [x07]) ++ @record LP64 [x00])
             [@deflate store_codec [x07]; [x00]]);
      vm_compute; reflexivity. }
  assert (@decompressFile_records LP64 [] cut
          = ([[x00]], Some Corrupted_compressed_file)) as Hrec3
    by (vm_compute; reflexivity).
  assert (@decompressFile_runs LP64 store_codec [] (Some cut) true o3)
    as Hrun3.
  { apply (@decompressFile_runs_thrown LP64 store_codec []
             (@record LP64 [x00] ++ le_encode (@sizeof_uLong LP64) 5 ++ [x01])
             [[x00]] Corrupted_compressed_file);
      vm_compute; reflexivity. }
  split_and!.
  - apply (@compressBlock_chunk store_codec).
    rewrite length_replicate. lia.
  - reflexivity.
  - done.
  - apply (proj1 (@worker_failure_discards_output LP64 store_codec
                    [] content o1)); [done|].
    exists [x2a], Compression_error. split; [|reflexivity].
    rewrite Hcs. right. left.
  - apply (proj1 (@worker_failure_discards_output LP64 store_codec
                    [] content o1)); [done|].
    exists [x2a], Compression_error. split; [|reflexivity].
    rewrite Hcs. right. left.
  - reflexivity.
  - reflexivity.
  - done.
  - apply (proj2 (@worker_failure_discards_output LP64 store_codec
                    [] file o2)); [done | vm_compute; reflexivity |].
    exists [x00], Decompression_error. split; [|reflexivity].
    rewrite Hrec2. right. left.
  - pose proof (proj2 (@worker_failure_discards_output LP64 store_codec
                         [] file o2)) as H2.
    destruct H2 as [_ H2]; [done | vm_compute; reflexivity | |].
    + exists [x00], Decompression_error. split; [|reflexivity].
      rewrite Hrec2. right. left.
    + rewrite Hrec2 in H2. exact H2.
  - done.
  - apply (proj2 (@worker_failure_discards_output LP64 store_codec
                    [] cut o3)); [done | vm_compute; reflexivity |].
    exists [x00], Decompression_error. split; [|reflexivity].
    rewrite Hrec3. left.
  - pose proof (proj2 (@worker_failure_discards_output LP64 store_codec
                         [] cut o3)) as H3.
    destruct H3 as [_ H3]; [done | vm_compute; reflexivity | |].
    + exists [x00], Decompression_error. split; [|reflexivity].
      rewrite Hrec3. left.
    + rewrite Hrec3 in H3. exact H3.
Defined.

Lemma last_failure_is_rethrown_witness :
  let job := @decompress_job store_codec in
  let file := magic ++ @record LP64 [x00] ++ @record LP64 [x01] in
  let tr := [Launch; Launch; Commit 0; Commit 1; Join 0; Join 1] in
  let last_caught := {| thrower := Worker 1; what := Decompression_error |} in
  let p := {| queue := [];
              threads := [([x00], Joined); ([x01], Joined)];
              mem := {| chunks := [];
                        threadException := Some last_caught |} |} in
  (@read_header [] file).1 = magic
  ∧ @decompressFile_records LP64 [] file = ([[x00]; [x01]], None)
  ∧ pool_steps job (pool_init [[x00]; [x01]]) tr p
  ∧ pool_joined p
  ∧ failures job [[x00]; [x01]] (commits tr)
    = [{| thrower := Worker 0; what := Decompression_error |}; last_caught]
  ∧ @decompressFile_runs LP64 store_codec [] (Some file) true
      (@decompressFile_finish (mem p))
  ∧ result_of (@decompressFile_finish (mem p)) = Thrown last_caught.
Proof.
  intros job file tr last_caught p.
  assert ((@read_header [] file).1 = magic) as Hm by (vm_compute; reflexivity).
  assert (@decompressFile_records LP64 [] file = ([[x00]; [x01]], None))
    as Hrec by (vm_compute; reflexivity).
  assert (pool_steps job (pool_init [[x00]; [x01]]) tr p) as Hsteps.
  { eapply pool_steps_cons; [apply step_launch|].
    eapply pool_steps_cons; [apply step_launch|].
    eapply pool_steps_cons;
      [by apply (step_commit job _ _ _ 0 [x00])|].
    eapply pool_steps_cons;
      [by apply (step_commit job _ _ _ 1 [x01])|].
    eapply pool_steps_cons.
    { apply (step_join job _ _ 0 [x00]); [done|]. intros j t Hj. lia. }
    eapply pool_steps_cons.
    { apply (step_join job _ _ 1 [x01]); [done|].
      intros [|j] t Hj Ht; [by injection Ht as <- | lia]. }
    constructor. }
  assert (pool_joined p) as Hj by (split; [done | by repeat constructor]).
  split_and!; [done | done | done | done | reflexivity | |].
  - pose proof (proj2 (proj2 (@last_failure_is_rethrown LP64 store_codec
                                [] file))) as H.
    destruct (H Hm) as [_ Hall]; [by rewrite Hrec|].
    rewrite Hrec in Hall. exact (proj1 (Hall tr p Hsteps Hj)).
  - pose proof (proj2 (proj2 (@last_failure_is_rethrown LP64 store_codec
                                [] file))) as H.
    destruct (H Hm) as [_ Hall]; [by rewrite Hrec|].
    rewrite Hrec in Hall. exact (proj2 (Hall tr p Hsteps Hj)).
Defined.

(** C3 as stated fails: in the run where worker 0 and then worker 1
    fail, the first failure observed is that of worker 0, and
    [decompressFile] rethrows the exception of worker 1. *)
Lemma first_failure_is_overwritten :
  let file := magic ++ @record LP64 [x00] ++ @record LP64 [x01] in
  let first := {| thrower := Worker 0; what := Decompression_error |} in
  let o := {| written := [];
              result_of :=
                Thrown {| thrower := Worker 1; what := Decompression_error |} |} in
  head (failures (@decompress_job store_codec)
          (@decompressFile_records LP64 [] file).1 [0; 1]) = Some first
  ∧ @decompressFile LP64 store_codec [0; 1] [] (Some file) true = o
  ∧ @decompressFile_runs LP64 store_codec [] (Some file) true o
  ∧ result_of o ≠ Thrown first.
Proof.
  intros file first o. split_and!.
  - vm_compute. reflexivity.
  - vm_compute. reflexivity.
  - change o with (@decompressFile LP64 store_codec [0; 1] [] (Some file) true).
    apply (@decompressFile_runs_intro LP64 store_codec [0; 1] []
             (@record LP64 [x00] ++ @record LP64 [x01]) [[x00]; [x01]]).
    + vm_compute. reflexivity.
    + vm_compute. reflexivity.
  - discriminate.
Qed.

(** ** Malformed ends of a compressed file *)

Section FormatClaims.
Context {platform : Platform} {zlib : Zlib}.

(** C6 (what the code does): a length field followed by fewer payload
    bytes makes the reading loop throw "Corrupted compressed file". With
    no complete record before it the exception reaches the caller; after
    one or more complete records the threads launched for them are
    still joinable when the stack unwinds, and [std::terminate] is
    called instead. Nothing is written in either case. *)
Theorem truncated_record_outcome header0 payloads n partial o :
  Forall (λ p, (N.of_nat (length p) < uLong_max_succ)%N) payloads →
  (n < uLong_max_succ)%N →
  length partial < N.to_nat n →
  decompressFile_runs header0
    (Some (magic ++ concat (record <$> payloads)
                 ++ le_encode sizeof_uLong n ++ partial)) true o →
  o = {| written := [];
         result_of :=
           match payloads with
           | [] => Thrown {| thrower := Main;
                             what := Corrupted_compressed_file |}
           | _ :: _ => Terminated
           end |}.
Proof.
  intros Hall Hn Hp Hrun.
  apply (decompressFile_runs_thrown _ _ payloads Corrupted_compressed_file)
    in Hrun.
  - subst o. by destruct payloads.
  - rewrite decompressFile_loop_records by done.
    by rewrite decompressFile_loop_truncated.
Qed.

(** C10: a trailing fragment shorter than a length field, after the
    header and complete records, is ignored: [decompressFile] ends as it
    does on the file without the fragment, never with "Corrupted
    compressed file", and it returns normally when every record
    decodes. *)
Theorem trailing_fragment_is_ignored header0 payloads frag o :
  Forall (λ p, (N.of_nat (length p) < uLong_max_succ)%N) payloads →
  length frag < sizeof_uLong →
  decompressFile_runs header0
    (Some (magic ++ concat (record <$> payloads) ++ frag)) true o →
  decompressFile_runs header0
    (Some (magic ++ concat (record <$> payloads))) true o
  ∧ result_of o ≠ Thrown {| thrower := Main;
                            what := Corrupted_compressed_file |}
  ∧ (Forall (λ p, ∃ d, decompress_job p = Val d) payloads →
     result_of o = Returned).
Proof.
  pose proof sizeof_uLong_ge as Hw.
  intros Hall Hf Hrun.
  apply (decompressFile_runs_valid _ _ payloads) in Hrun;
    [|by apply decompressFile_loop_wellformed].
  destruct Hrun as (sched & Hs & ->). split_and!.
  - apply (decompressFile_runs_valid _ _ payloads).
    + rewrite <- (app_nil_r (concat _)).
      apply decompressFile_loop_wellformed; [done | simpl; lia].
    + by exists sched.
  - rewrite decompressFile_finish_run.
    destruct (last _) as [e|] eqn:Hl; [|done]. simpl.
    apply last_Some_elem_of, failures_thrower in Hl as [i Hi].
    intros [= ->]. done.
  - intros Hok. rewrite decompressFile_finish_run.
    by rewrite (successes_all _ _ _ Hok).
Qed.

End FormatClaims.

Lemma truncated_record_outcome_witness :
  let file := magic ++ concat (@record LP64 <$> [[x00]])
                ++ le_encode (@sizeof_uLong LP64) 5 ++ [x01] in
  let o := {| written := []; result_of := Terminated |} in
  @decompressFile_runs LP64 store_codec [] (Some file) true o
  ∧ @decompressFile LP64 store_codec [0] [] (Some file) true = o.
Proof.
  intros file o.
  assert (@decompressFile_runs LP64 store_codec [] (Some file) true o) as Hrun.
  { apply (@decompressFile_runs_thrown LP64 store_codec []
             (concat (@record LP64 <$> [[x00]])
                ++ le_encode (@sizeof_uLong LP64) 5 ++ [x01])
             [[x00]] Corrupted_compressed_file);
      vm_compute; reflexivity. }
  split; [done|].
  rewrite (@truncated_record_outcome LP64 store_codec [] [[x00]] 5 [x01] o);
    [vm_compute; reflexivity | | | | done].
  - apply Forall_singleton. vm_compute. reflexivity.
  - vm_compute. reflexivity.
  - vm_compute. lia.
Defined.

Lemma trailing_fragment_is_ignored_witness :
  let body := concat (@record LP64 <$> [@deflate store_codec [x07; x08]]) in
  let o := {| written := [x07; x08]; result_of := Returned |} in
  @decompressFile_runs LP64 store_codec [] (Some (magic ++ body ++ [x01; x02]))
    true o
  ∧ @decompressFile_runs LP64 store_codec [] (Some (magic ++ body)) true o.
Proof.
  intros body o.
  assert (@decompressFile_runs LP64 store_codec []
            (Some (magic ++ body ++ [x01; x02])) true o) as Hrun.
  { change o with (@decompressFile LP64 store_codec [0] []
                     (Some (magic ++ body ++ [x01; x02])) true).
    apply (@decompressFile_runs_intro LP64 store_codec [0] []
             (body ++ [x01; x02]) [@deflate store_codec [x07; x08]]);
      vm_compute; reflexivity. }
  split; [done|].
  apply (@trailing_fragment_is_ignored LP64 store_codec []
           [@deflate store_codec [x07; x08]] [x01; x02] o);
    [|vm_compute; lia|done].
  apply Forall_singleton. vm_compute. reflexivity.
Defined.

(** ** Threads and the order of the chunks *)

Lemma replicate_ne (n : nat) (x y : byte) :
  0 < n → x ≠ y → replicate n x ≠ replicate n y.
Proof.
  intros Hn Hxy Heq. apply (f_equal (λ l, l !! 0)) in Heq.
  rewrite !lookup_replicate_2 in Heq by done. by injection Heq.
Qed.

Lemma schedule_swap : schedule 2 [1; 0].
Proof. unfold schedule. simpl. apply perm_swap. Qed.

Lemma schedule_seq n : schedule n (seq 0 n).
Proof. by unfold schedule. Qed.

Section OrderClaims.
Context {platform : Platform} {zlib : Zlib}.

(** Every thread of a file can be running at the same time. *)
Lemma all_threads_running job bufs :
  ∃ tr p, pool_steps job (pool_init bufs) tr p ∧ running p = length bufs.
Proof.
  exists (replicate (length bufs) Launch),
    {| queue := []; threads := [] ++ ((λ b, (b, Running)) <$> bufs);
       mem := shared_init |}.
  split; [apply launch_steps|]. unfold running. simpl. apply running_all.
Qed.

Lemma launches_app tr1 tr2 : launches (tr1 ++ tr2) = launches tr1 + launches tr2.
Proof. unfold launches. by rewrite omap_app, length_app. Qed.

(** Every launch adds one thread to the vector, and nothing removes
    one. *)
Lemma pool_steps_launches job bufs tr p :
  pool_steps job (pool_init bufs) tr p → launches tr = length (threads p).
Proof.
  induction 1 as [|tr p1 e p2 _ IH Hs]; [done|].
  rewrite launches_app, IH.
  destruct Hs; cbn [threads launches omap list_omap length];
    rewrite ?length_app, ?length_insert; simpl; lia.
Qed.

(** The join loop runs after the reading loop: when a thread is joined,
    every chunk has its thread. *)
Lemma join_after_launches job bufs tr p i p' :
  pool_steps job (pool_init bufs) tr p → pool_step job p (Join i) p' →
  launches tr = length bufs ∧ queue p = [].
Proof.
  intros Hsteps Hjoin.
  pose proof (pool_steps_launches _ _ _ _ Hsteps) as Hl.
  apply pool_steps_inv in Hsteps as (Hb & _).
  assert (queue p = []) as Hq by (by inversion Hjoin).
  split; [|done].
  by rewrite Hl, <- Hb, Hq, app_nil_r, length_fmap.
Qed.

Lemma launches_le job bufs tr p :
  pool_steps job (pool_init bufs) tr p → launches tr ≤ length bufs.
Proof.
  intros Hsteps. rewrite (pool_steps_launches _ _ _ _ Hsteps).
  apply pool_steps_inv in Hsteps as (Hb & _).
  rewrite <- Hb, length_app, length_fmap. lia.
Qed.

(** C8 (as the code has it): [compressFile] and [decompressFile] launch
    one thread per chunk with no pool. In every run no more threads are
    launched than the file has chunks, and when a thread is joined the
    reading loop is over and the threads of all chunks have been
    launched; a run can reach a state in which the threads of all chunks
    run at the same time; and the number of chunks grows with the input,
    one for every [CHUNK_SIZE] bytes. For [decompressFile] the chunks are
    the records read from a file with a valid header. *)
Theorem one_thread_per_chunk header0 content :
  ((∀ tr p,
      pool_steps compressBlock (pool_init (compressFile_chunks content)) tr p →
      launches tr ≤ length (compressFile_chunks content)
      ∧ ∀ i p', pool_step compressBlock p (Join i) p' →
                launches tr = length (compressFile_chunks content)
                ∧ queue p = [])
   ∧ ∃ tr p,
       pool_steps compressBlock (pool_init (compressFile_chunks content)) tr p
       ∧ launches tr = length (compressFile_chunks content)
       ∧ running p = length (compressFile_chunks content)
       ∧ length content ≤ running p * CHUNK_SIZE)
  ∧ ((read_header header0 content).1 = magic →
     (∀ tr p,
        pool_steps decompress_job
          (pool_init (decompressFile_records header0 content).1) tr p →
        launches tr ≤ length (decompressFile_records header0 content).1
        ∧ ∀ i p', pool_step decompress_job p (Join i) p' →
                  launches tr = length (decompressFile_records header0 content).1
                  ∧ queue p = [])
     ∧ ∃ tr p,
         pool_steps decompress_job
           (pool_init (decompressFile_records header0 content).1) tr p
         ∧ launches tr = length (decompressFile_records header0 content).1
         ∧ running p = length (decompressFile_records header0 content).1).
Proof.
  assert (∀ job bufs, ∃ tr p,
            pool_steps job (pool_init bufs) tr p
            ∧ launches tr = length bufs ∧ running p = length bufs) as Hall.
  { intros job bufs.
    destruct (all_threads_running job bufs) as (tr & p & Hsteps & Hr).
    exists tr, p. split_and!; [done | | done].
    pose proof (launches_le _ _ _ _ Hsteps) as Hle.
    rewrite (pool_steps_launches _ _ _ _ Hsteps) in Hle |- *.
    pose proof (length_filter (λ t : buffer * thread_state, t.2 = Running)
                  (threads p)) as Hf.
    unfold running in Hr. lia. }
  split; [split|intros _; split].
  - intros tr p Hsteps. split; [by eapply launches_le|].
    intros i p' Hjoin. by eapply join_after_launches.
  - destruct (Hall compressBlock (compressFile_chunks content))
      as (tr & p & Hsteps & Hl & Hr).
    exists tr, p. split_and!; [done | done | done |].
    rewrite Hr. apply compressFile_chunks_count.
  - intros tr p Hsteps. split; [by eapply launches_le|].
    intros i p' Hjoin. by eapply join_after_launches.
  - apply Hall.
Qed.

Lemma compressFile_two_chunks sched a b :
  length a = CHUNK_SIZE → length b = CHUNK_SIZE →
  compressFile sched (Some (a ++ b)) true =
  {| written := magic ++ concat (record <$> successes compressBlock [a; b] sched);
     result_of := Returned |}.
Proof.
  intros Ha Hb. pose proof CHUNK_SIZE_val.
  unfold compressFile. rewrite compressFile_chunks_two by done.
  rewrite compressFile_finish_run, successes_all; [done|].
  repeat constructor; eexists; apply compressBlock_chunk; lia.
Qed.

Lemma successes_swap a b :
  length a = CHUNK_SIZE → length b = CHUNK_SIZE →
  successes compressBlock [a; b] [1; 0] = [deflate b; deflate a].
Proof.
  intros Ha Hb. pose proof CHUNK_SIZE_val. unfold successes.
  rewrite !omap_cons. simpl.
  rewrite !compressBlock_chunk by lia. done.
Qed.

(** C2 (what the code does): the records are written in the order in
    which the workers append their results. For two different full
    chunks [a], [b] there is a run of [compressFile] that returns
    normally with the record of [b] before the record of [a]. *)
Theorem records_follow_completion_order a b :
  length a = CHUNK_SIZE → length b = CHUNK_SIZE → a ≠ b →
  ∃ o, compressFile_runs (Some (a ++ b)) true o
       ∧ result_of o = Returned
       ∧ written o = magic ++ record (deflate b) ++ record (deflate a)
       ∧ written o ≠ magic ++ record (deflate a) ++ record (deflate b).
Proof.
  intros Ha Hb Hne.
  exists (compressFile [1; 0] (Some (a ++ b)) true). split.
  { apply compressFile_runs_intro. rewrite compressFile_chunks_two by done.
    apply schedule_swap. }
  rewrite compressFile_two_chunks, successes_swap by done.
  cbn [written result_of fmap list_fmap concat]. rewrite app_nil_r.
  split_and!; [done | done |].
  intros Heq. apply app_inv_head in Heq.
  apply record_app_inj in Heq; [|apply deflate_chunk_fits; lia..].
  apply deflate_inj in Heq. by symmetry in Heq.
Qed.

(** C1 (what the code does): the round trip fails on a file of one
    byte, which [compressFile] cannot compress into its buffer of two
    bytes, and on a file of two different full chunks when the second
    worker of [compressFile] finishes first: decompressing gives the
    chunks in the wrong order. *)
Theorem round_trip_fails header0 x a b :
  length a = CHUNK_SIZE → length b = CHUNK_SIZE → a ≠ b →
  (∀ o, compressFile_runs (Some [x]) true o →
        o = {| written := magic;
               result_of := Thrown {| thrower := Worker 0;
                                      what := Compression_error |} |})
  ∧ ∃ o1 o2,
      compressFile_runs (Some (a ++ b)) true o1
      ∧ result_of o1 = Returned
      ∧ decompressFile_runs header0 (Some (written o1)) true o2
      ∧ result_of o2 = Returned
      ∧ written o2 = b ++ a
      ∧ written o2 ≠ a ++ b.
Proof.
  intros Ha Hb Hne. pose proof CHUNK_SIZE_val as Hc. split.
  - intros o (sched & Hs & ->)%compressFile_runs_schedule.
    rewrite compressFile_chunks_last in Hs by (simpl; lia).
    unfold schedule in Hs. simpl in Hs.
    apply Permutation_singleton_r in Hs as ->.
    unfold compressFile. rewrite compressFile_chunks_last by (simpl; lia).
    assert (compressBlock [x] = Exn Compression_error) as Hfail.
    { apply compressBlock_overflow; [done|].
      pose proof (deflate_min_length [x]). simpl. lia. }
    rewrite compressFile_finish_run. unfold failures.
    rewrite omap_cons. change ([[x]] !! 0) with (Some [x]).
    cbv beta iota. by rewrite Hfail.
  - exists (compressFile [1; 0] (Some (a ++ b)) true).
    assert (∀ sched,
      decompressFile sched header0
        (Some (written (compressFile [1; 0] (Some (a ++ b)) true))) true =
      decompressFile_finish
        (run_workers decompress_job [deflate b; deflate a] sched shared_init))
      as Hd.
    { intros sched. rewrite compressFile_two_chunks, successes_swap by done.
      cbn [written]. apply decompressFile_valid.
      rewrite <- (app_nil_r (concat _)).
      apply decompressFile_loop_wellformed; [|pose proof sizeof_uLong_ge; simpl; lia].
      repeat constructor; apply deflate_chunk_fits; lia. }
    exists (decompressFile [0; 1] header0
              (Some (written (compressFile [1; 0] (Some (a ++ b)) true))) true).
    split_and!.
    + apply compressFile_runs_intro. rewrite compressFile_chunks_two by done.
      apply schedule_swap.
    + by rewrite compressFile_two_chunks.
    + rewrite compressFile_two_chunks, successes_swap by done. cbn [written].
      apply (decompressFile_runs_intro _ _ _ [deflate b; deflate a]);
        [|apply (schedule_seq 2)].
      rewrite <- (app_nil_r (concat _)).
      apply decompressFile_loop_wellformed; [|pose proof sizeof_uLong_ge; simpl; lia].
      repeat constructor; apply deflate_chunk_fits; lia.
    + rewrite Hd, decompressFile_finish_run.
      rewrite successes_all; [done|].
      repeat constructor; eexists; apply decompress_job_deflate; lia.
    + rewrite Hd, decompressFile_finish_run.
      rewrite successes_all
        by (repeat constructor; eexists; apply decompress_job_deflate; lia).
      cbn [written].
      rewrite (successes_in_order decompress_job [deflate b; deflate a] [b; a])
        by (repeat constructor; apply decompress_job_deflate; lia).
      simpl. by rewrite app_nil_r.
    + rewrite Hd, decompressFile_finish_run.
      rewrite successes_all
        by (repeat constructor; eexists; apply decompress_job_deflate; lia).
      cbn [written].
      rewrite (successes_in_order decompress_job [deflate b; deflate a] [b; a])
        by (repeat constructor; apply decompress_job_deflate; lia).
      simpl. rewrite app_nil_r. intros Heq.
      apply app_inj_1 in Heq as [Heq _]; [exact (Hne (eq_sym Heq)) | congruence].
Qed.

End OrderClaims.

Lemma records_follow_completion_order_witness :
  length (replicate CHUNK_SIZE x00) = CHUNK_SIZE
  ∧ length (replicate CHUNK_SIZE x01) = CHUNK_SIZE
  ∧ replicate CHUNK_SIZE x00 ≠ replicate CHUNK_SIZE x01
  ∧ ∃ o,
      @compressFile_runs LP64 store_codec
        (Some (replicate CHUNK_SIZE x00 ++ replicate CHUNK_SIZE x01)) true o
      ∧ result_of o = Returned
      ∧ written o =
        magic ++ @record LP64 (@deflate store_codec (replicate CHUNK_SIZE x01))
              ++ @record LP64 (@deflate store_codec (replicate CHUNK_SIZE x00))
      ∧ written o ≠
        magic ++ @record LP64 (@deflate store_codec (replicate CHUNK_SIZE x00))
              ++ @record LP64 (@deflate store_codec (replicate CHUNK_SIZE x01)).
Proof.
  assert (replicate CHUNK_SIZE x00 ≠ replicate CHUNK_SIZE x01) as Hne
    by (apply replicate_ne; [apply CHUNK_SIZE_pos | discriminate]).
  split_and!; [apply length_replicate | apply length_replicate | done |].
  apply (@records_follow_completion_order LP64 store_codec
           (replicate CHUNK_SIZE x00) (replicate CHUNK_SIZE x01));
    [apply length_replicate | apply length_replicate | done].
Defined.

Lemma round_trip_fails_witness :
  length (replicate CHUNK_SIZE x00) = CHUNK_SIZE
  ∧ length (replicate CHUNK_SIZE x01) = CHUNK_SIZE
  ∧ replicate CHUNK_SIZE x00 ≠ replicate CHUNK_SIZE x01
  ∧ (∀ o, @compressFile_runs LP64 store_codec (Some [x2a]) true o →
          o = {| written := magic;
                 result_of := Thrown {| thrower := Worker 0;
                                        what := Compression_error |} |})
  ∧ ∃ o1 o2,
      @compressFile_runs LP64 store_codec
        (Some (replicate CHUNK_SIZE x00 ++ replicate CHUNK_SIZE x01)) true o1
      ∧ result_of o1 = Returned
      ∧ @decompressFile_runs LP64 store_codec [] (Some (written o1)) true o2
      ∧ result_of o2 = Returned
      ∧ written o2 = replicate CHUNK_SIZE x01 ++ replicate CHUNK_SIZE x00
      ∧ written o2 ≠ replicate CHUNK_SIZE x00 ++ replicate CHUNK_SIZE x01.
Proof.
  assert (replicate CHUNK_SIZE x00 ≠ replicate CHUNK_SIZE x01) as Hne
    by (apply replicate_ne; [apply CHUNK_SIZE_pos | discriminate]).
  split_and!; [apply length_replicate | apply length_replicate | done | |];
    apply (@round_trip_fails LP64 store_codec [] x2a
             (replicate CHUNK_SIZE x00) (replicate CHUNK_SIZE x01));
    (apply length_replicate || done).
Defined.

Lemma one_thread_per_chunk_witness :
  let content := [x00; x01; x02; x03; x04; x05; x06; x07; x08; x09; x0a;
                  x0b; x0c; x0d] in
  let job := @compressBlock store_codec in
  let p := {| queue := []; threads := [(content, Finished)];
              mem := worker job 0 content shared_init |} in
  let p' := {| queue := []; threads := [(content, Joined)];
               mem := worker job 0 content shared_init |} in
  pool_steps job (pool_init (compressFile_chunks content)) [Launch; Commit 0] p
  ∧ pool_step job p (Join 0) p'
  ∧ launches [Launch; Commit 0] = length (compressFile_chunks content)
  ∧ queue p = [].
Proof.
  intros content job p p'.
  assert (compressFile_chunks content = [content]) as Hcs.
  { apply compressFile_chunks_last. pose proof CHUNK_SIZE_val. simpl. lia. }
  assert (pool_steps job (pool_init (compressFile_chunks content))
            [Launch; Commit 0] p) as Hsteps.
  { rewrite Hcs.
    eapply pool_steps_cons; [apply step_launch|].
    eapply pool_steps_cons; [by apply (step_commit job _ _ _ 0 content)|].
    constructor. }
  assert (pool_step job p (Join 0) p') as Hjoin.
  { apply (step_join job [(content, Finished)]
             (worker job 0 content shared_init) 0 content); [done|].
    intros j t Hj. lia. }
  split_and!; [done | done | |];
    apply (proj2 (proj1 (proj1 (@one_thread_per_chunk LP64 store_codec
                                  [] content))
                    [Launch; Commit 0] p Hsteps) 0 p' Hjoin).
Defined.

(** C8 as stated fails: no limit bounds the threads that run at the
    same time. For every limit there is an input on which more threads
    than that run together; five chunks give five such threads. *)
Lemma threads_exceed_every_limit :
  (∀ limit : nat, ∃ content tr p,
     pool_steps (@compressBlock store_codec)
       (pool_init (compressFile_chunks content)) tr p
     ∧ limit < running p)
  ∧ (∃ tr p,
       pool_steps (@compressBlock store_codec)
         (pool_init (compressFile_chunks (replicate (5 * CHUNK_SIZE) x00)))
         tr p
       ∧ 5 ≤ running p).
Proof.
  assert (∀ limit : nat, ∃ content tr p,
     pool_steps (@compressBlock store_codec)
       (pool_init (compressFile_chunks content)) tr p
     ∧ limit ≤ running p
     ∧ content = replicate (limit * CHUNK_SIZE) x00) as Hall.
  { intros limit. exists (replicate (limit * CHUNK_SIZE) x00).
    destruct (all_threads_running (@compressBlock store_codec)
                (compressFile_chunks (replicate (limit * CHUNK_SIZE) x00)))
      as (tr & p & Hsteps & Hr).
    exists tr, p. split_and!; [done | | done].
    pose proof (compressFile_chunks_count
                  (replicate (limit * CHUNK_SIZE) x00)) as Hc.
    rewrite length_replicate, <- Hr in Hc.
    pose proof CHUNK_SIZE_pos. nia. }
  split.
  - intros limit. destruct (Hall (S limit)) as (c & tr & p & Hs & Hr & _).
    exists c, tr, p. split; [done | lia].
  - destruct (Hall 5) as (c & tr & p & Hs & Hr & ->). by exists tr, p.
Qed.

(** * Further properties of the code *)

(** ** Length fields and framing *)

(** X1: a length written as [w] bytes and read back is the length modulo
    [256^w]: lengths that fit the field are read back unchanged, larger
    ones wrap around. The field always has [w] bytes. *)
Theorem length_field_round_trip (w : nat) (n : N) :
  le_decode (le_encode w n) = (n mod 256 ^ N.of_nat w)%N
  ∧ length (le_encode w n) = w.
Proof.
  split; [|apply length_le_encode].
  revert n. induction w as [|w IH]; intros n.
  - simpl. by rewrite N.mod_1_r.
  - cbn [le_encode le_decode]. rewrite byte_of_N_to_N, IH.
    rewrite Nat2N.inj_succ, N.pow_succ_r'.
    by rewrite N.Div0.mod_mul_r.
Qed.

Section FramingProperties.
Context {platform : Platform} {zlib : Zlib}.

(** X2: the reading loop of [decompressFile] recovers from the header
    followed by the records of any sequence of payloads exactly that
    sequence, in order, and ends without an exception. *)
Theorem framing_round_trip header0 (payloads : list buffer) :
  Forall (λ p, (N.of_nat (length p) < uLong_max_succ)%N) payloads →
  decompressFile_records header0 (magic ++ concat (record <$> payloads))
  = (payloads, None).
Proof.
  intros Hall. pose proof sizeof_uLong_ge.
  rewrite decompressFile_records_magic, <- (app_nil_r (concat _)).
  apply decompressFile_loop_wellformed; [done | simpl; lia].
Qed.

(** X3: a file of four bytes or more that does not start with "CMP1" is
    rejected with "Invalid compressed file format" in every run; no
    thread is launched and nothing is written. *)
Theorem wrong_magic_is_rejected header0 content o :
  4 ≤ length content →
  take 4 content ≠ magic →
  decompressFile_runs header0 (Some content) true o →
  o = throw_main Invalid_compressed_file_format.
Proof.
  intros Hlen Hm Hrun. unfold decompressFile_runs in Hrun.
  rewrite decide_False in Hrun; [done|].
  unfold read_header.
  change (ifstream_open content) with (good_stream content 0).
  rewrite istream_read_good by done. cbn [fst].
  rewrite take_app_le by (rewrite length_take; lia).
  rewrite take_take. by replace (4 `min` 4) with 4 by done.
Qed.

End FramingProperties.

Lemma framing_round_trip_witness :
  Forall (λ p, (N.of_nat (length p) < @uLong_max_succ LP64)%N)
    [[x01; x02]; []; [x03]]
  ∧ @decompressFile_records LP64 []
      (magic ++ concat (@record LP64 <$> [[x01; x02]; []; [x03]]))
    = ([[x01; x02]; []; [x03]], None).
Proof.
  assert (Forall (λ p, (N.of_nat (length p) < @uLong_max_succ LP64)%N)
            [[x01; x02]; []; [x03]]) as Hall
    by (repeat constructor).
  split; [done|].
  by apply (@framing_round_trip LP64 [] [[x01; x02]; []; [x03]]).
Defined.

Lemma wrong_magic_is_rejected_witness :
  let o := @decompressFile LP64 store_codec [] []
             (Some [x43; x4d; x50; x32; x00]) true in
  4 ≤ length [x43; x4d; x50; x32; x00]
  ∧ take 4 [x43; x4d; x50; x32; x00] ≠ magic
  ∧ @decompressFile_runs LP64 store_codec []
      (Some [x43; x4d; x50; x32; x00]) true o
  ∧ o = throw_main Invalid_compressed_file_format.
Proof.
  intros o.
  assert (@decompressFile_runs LP64 store_codec []
            (Some [x43; x4d; x50; x32; x00]) true o) as Hrun
    by (vm_compute; reflexivity).
  split_and!; [simpl; lia | discriminate | done |].
  apply (@wrong_magic_is_rejected LP64 store_codec []
           [x43; x4d; x50; x32; x00] o);
    [simpl; lia | discriminate | done].
Defined.

(** ** The block functions *)

Section BlockProperties.
Context {zlib : Zlib}.

(** X4: what [compressBlock] returns for a buffer, [decompressBlock]
    turns back into that buffer, for every [originalSize] that is at
    least the size of the buffer; the empty buffer included. *)
Theorem block_round_trip data z originalSize :
  compressBlock data = Val z →
  length data ≤ originalSize →
  decompressBlock z originalSize = Val data.
Proof.
  intros Hc Hl. destruct data as [|b data].
  - simpl in Hc. by injection Hc as <-.
  - unfold compressBlock, compress in Hc. case_decide; [|done].
    injection Hc as <-.
    rewrite (decompressBlock_inflate _ (b :: data)) by apply inflate_deflate.
    by rewrite decide_True.
Qed.

(** X5: [compressBlock] gives zlib a buffer of twice the input size. A
    buffer of one or two bytes is never compressed (a zlib stream has at
    least six bytes): the call throws. A buffer of 13 bytes or more is
    always compressed. *)
Theorem compressBlock_buffer_estimate data :
  (1 ≤ length data ≤ 2 → compressBlock data = Exn Compression_error)
  ∧ (13 ≤ length data → compressBlock data = Val (deflate data)).
Proof.
  split; intros Hl.
  - apply compressBlock_overflow.
    + intros ->. simpl in Hl. lia.
    + pose proof (deflate_min_length data). lia.
  - apply compressBlock_fits.
    + intros ->. simpl in Hl. lia.
    + pose proof (deflate_bound data) as Hb.
      unfold compressBound in Hb. cbv zeta in Hb.
      zify. Z.to_euclidean_division_equations. lia.
Qed.

(** X6: [decompressBlock] returns [d] exactly when the payload is empty
    and [d] is empty, or the payload is a valid stream that decodes to
    [d] and [d] fits [originalSize]; the only exception it throws is the
    decompression error, and never on an empty payload. *)
Theorem decompressBlock_result payload originalSize d e :
  (decompressBlock payload originalSize = Val d
   ↔ (payload = [] ∧ d = [])
     ∨ (inflate payload = Some d ∧ length d ≤ originalSize))
  ∧ (decompressBlock payload originalSize = Exn e →
     e = Decompression_error ∧ payload ≠ []).
Proof.
  destruct payload as [|b payload].
  - simpl. split; [split|done].
    + intros [= <-]. by left.
    + intros [[_ ->]|[Hi _]]; [done|].
      apply inflate_min_length in Hi. simpl in Hi. lia.
  - unfold decompressBlock, uncompress.
    destruct (inflate (b :: payload)) as [d'|] eqn:Hi.
    + case_decide as Hd; (split; [split|]).
      * intros [= <-]. by right.
      * intros [[? _]|[[= ->] _]]; done.
      * done.
      * done.
      * intros [[? _]|[[= ->] ?]]; [done | lia].
      * by intros [= <-].
    + split; [split|].
      * done.
      * intros [[? _]|[? _]]; done.
      * by intros [= <-].
Qed.

End BlockProperties.

Lemma block_round_trip_witness :
  @compressBlock store_codec [x01; x02; x03; x04; x05; x06]
    = Val (@deflate store_codec [x01; x02; x03; x04; x05; x06])
  ∧ length [x01; x02; x03; x04; x05; x06] ≤ 6
  ∧ @decompressBlock store_codec
      (@deflate store_codec [x01; x02; x03; x04; x05; x06]) 6
    = Val [x01; x02; x03; x04; x05; x06].
Proof.
  split_and!; [reflexivity | simpl; lia |].
  apply (@block_round_trip store_codec [x01; x02; x03; x04; x05; x06]);
    [reflexivity | simpl; lia].
Defined.

Lemma compressBlock_buffer_estimate_witness :
  1 ≤ length [x2a] ≤ 2
  ∧ @compressBlock store_codec [x2a] = Exn Compression_error.
Proof.
  split; [simpl; lia|].
  apply (proj1 (@compressBlock_buffer_estimate store_codec [x2a])).
  simpl. lia.
Defined.

Lemma decompressBlock_result_witness :
  @decompressBlock store_codec [x00; x01] 4 = Exn Decompression_error
  ∧ Decompression_error = Decompression_error ∧ [x00; x01] ≠ [].
Proof.
  split; [reflexivity|].
  apply (proj2 (@decompressBlock_result store_codec [x00; x01] 4 []
                  Decompression_error)).
  reflexivity.
Defined.

(** ** The collector of the results *)

Lemma concat_Permutation (cs cs' : list buffer) :
  cs ≡ₚ cs' → concat cs ≡ₚ concat cs'.
Proof.
  induction 1 as [|c cs cs' _ IH|c c' cs|cs1 cs2 cs3 _ IH1 _ IH2]; simpl.
  - done.
  - by rewrite IH.
  - rewrite !app_assoc. f_equiv. apply Permutation_app_comm.
  - by rewrite IH1.
Qed.

Section CollectorProperties.
Variable job : buffer → res buffer.

Lemma successes_seq pre bufs :
  successes job (pre ++ bufs) (seq (length pre) (length bufs))
  = omap (returned job) bufs.
Proof.
  revert pre. induction bufs as [|b bufs IH]; intros pre; [done|].
  unfold successes. cbn [length seq]. rewrite !omap_cons. cbv beta.
  rewrite lookup_app_r, Nat.sub_diag by done. cbn [lookup list_lookup].
  specialize (IH (pre ++ [b])).
  rewrite length_app, Nat.add_1_r, <- app_assoc in IH.
  unfold successes in IH. cbn [app] in IH. rewrite IH.
  unfold returned. by destruct (job b).
Qed.

Lemma successes_schedule bufs sched :
  schedule (length bufs) sched →
  successes job bufs sched ≡ₚ omap (returned job) bufs.
Proof.
  intros Hs. rewrite <- (successes_seq [] bufs). simpl.
  unfold successes. by rewrite Hs.
Qed.

Lemma successes_elem bufs sched z :
  z ∈ successes job bufs sched → ∃ b, b ∈ bufs ∧ job b = Val z.
Proof.
  intros (i & _ & Hi)%list_elem_of_omap.
  destruct (bufs !! i) as [b|] eqn:Hb; [|done].
  exists b. split; [by eapply list_elem_of_lookup_2|].
  destruct (job b); [by injection Hi as -> | done].
Qed.

Lemma failures_elem bufs sched e :
  e ∈ failures job bufs sched →
  ∃ i b, bufs !! i = Some b ∧ job b = Exn (what e) ∧ thrower e = Worker i.
Proof.
  intros (i & _ & Hi)%list_elem_of_omap.
  destruct (bufs !! i) as [b|] eqn:Hb; [|done].
  exists i, b. destruct (job b) eqn:Hj; [done|].
  by injection Hi as <-.
Qed.

Lemma failures_nil_schedule bufs sched :
  schedule (length bufs) sched →
  failures job bufs sched = [] ↔ Forall (λ b, ∃ out, job b = Val out) bufs.
Proof.
  intros Hs. split; [|apply successes_all].
  intros Hnil. apply Forall_lookup. intros i b Hb.
  destruct (job b) as [out|e] eqn:Hj; [by exists out|].
  pose proof (failures_schedule job bufs sched i b e Hs Hb Hj) as Hin.
  rewrite Hnil in Hin. by apply elem_of_nil in Hin.
Qed.

(** X7: the states of the shared objects that the main thread can find
    after the join loop, over all interleavings of launches, critical
    sections and joins, are exactly those reached by running the
    critical sections of the workers one after the other in some order,
    each worker once. *)
Theorem pool_runs_are_schedules bufs m :
  pool_result job bufs m ↔
  ∃ sched, sched ≡ₚ seq 0 (length bufs)
           ∧ m = run_workers job bufs sched shared_init.
Proof.
  split.
  - intros (tr & p & Hsteps & Hj & <-). exists (commits tr).
    by eapply pool_joined_schedule.
  - intros (sched & Hs & ->). by apply schedule_pool_result.
Qed.

(** X8: after the join loop the vector of results holds the results of
    exactly the workers whose job returned, each once, in some order;
    and [threadException] is null exactly when every job returned. *)
Theorem collector_holds_all_results bufs m :
  pool_result job bufs m →
  chunks m ≡ₚ omap (returned job) bufs
  ∧ (threadException m = None
     ↔ Forall (λ b, ∃ out, job b = Val out) bufs).
Proof.
  intros (sched & Hs & ->)%pool_result_schedule. split.
  - rewrite run_workers_chunks. simpl. by apply successes_schedule.
  - rewrite run_workers_exception. simpl.
    rewrite <- (failures_nil_schedule bufs sched Hs).
    destruct (failures job bufs sched) as [|e l] eqn:E using rev_ind.
    + done.
    + rewrite last_snoc. split; [done|]. intros Hnil.
      by apply app_nil in Hnil as [_ ?].
Qed.

End CollectorProperties.

Lemma collector_holds_all_results_witness :
  pool_result (@decompress_job store_codec)
    [@deflate store_codec [x01]; [x00]; @deflate store_codec [x02]]
    (run_workers (@decompress_job store_codec)
       [@deflate store_codec [x01]; [x00]; @deflate store_codec [x02]]
       [2; 1; 0] shared_init)
  ∧ chunks (run_workers (@decompress_job store_codec)
              [@deflate store_codec [x01]; [x00]; @deflate store_codec [x02]]
              [2; 1; 0] shared_init)
    ≡ₚ [[x01]; [x02]].
Proof.
  assert (pool_result (@decompress_job store_codec)
    [@deflate store_codec [x01]; [x00]; @deflate store_codec [x02]]
    (run_workers (@decompress_job store_codec)
       [@deflate store_codec [x01]; [x00]; @deflate store_codec [x02]]
       [2; 1; 0] shared_init)) as Hrun.
  { apply schedule_pool_result. unfold schedule. simpl.
    symmetry. apply (Permutation_rev [0; 1; 2]). }
  split; [done|].
  apply (proj1 (collector_holds_all_results (@decompress_job store_codec)
                  _ _ Hrun)).
Defined.

(** ** The chunks of a file *)

(** X9: [compressFile] launches as many threads as the file has
    chunks: the file size divided by [CHUNK_SIZE], rounded up; none for
    the empty file. *)
Theorem chunk_count (content : buffer) :
  length (compressFile_chunks content)
  = (length content + CHUNK_SIZE - 1) / CHUNK_SIZE.
Proof.
  pose proof CHUNK_SIZE_pos as Hc.
  apply (chunks_ind (λ content cs,
    length cs = (length content + CHUNK_SIZE - 1) / CHUNK_SIZE)).
  - simpl. symmetry. apply Nat.div_small. lia.
  - intros c Hl. simpl.
    apply (Nat.div_unique _ _ 1 (length c - 1)); lia.
  - intros a rest cs Ha IH. simpl. rewrite IH, length_app, Ha.
    replace (CHUNK_SIZE + length rest + CHUNK_SIZE - 1)
      with (1 * CHUNK_SIZE + (length rest + CHUNK_SIZE - 1)) by lia.
    rewrite Nat.div_add_l by lia. done.
Qed.

Lemma compressFile_chunks_tail (content : buffer) :
  0 < length content `mod` CHUNK_SIZE →
  ∃ c, c ∈ compressFile_chunks content
       ∧ length c = length content `mod` CHUNK_SIZE.
Proof.
  pose proof CHUNK_SIZE_pos as Hc.
  apply (chunks_ind (λ content cs,
    0 < length content `mod` CHUNK_SIZE →
    ∃ c, c ∈ cs ∧ length c = length content `mod` CHUNK_SIZE)).
  - rewrite Nat.Div0.mod_0_l. lia.
  - intros c Hl _. exists c. split; [left|].
    by rewrite Nat.mod_small by lia.
  - intros a rest cs Ha IH. rewrite length_app, Ha.
    replace (CHUNK_SIZE + length rest)
      with (length rest + 1 * CHUNK_SIZE) by lia.
    rewrite Nat.Div0.mod_add. intros (c & Hin & Hl)%IH.
    exists c. split; [by right | done].
Qed.

Section FileProperties.
Context {platform : Platform} {zlib : Zlib}.

Lemma compressBlock_Val c z :
  c ≠ [] → compressBlock c = Val z → z = deflate c.
Proof.
  intros Hne Hc. destruct c as [|b c]; [done|].
  unfold compressBlock, compress in Hc. case_decide; [|done].
  by injection Hc as <-.
Qed.

Lemma compressBlock_Exn c e : compressBlock c = Exn e → e = Compression_error.
Proof.
  destruct c as [|b c]; [done|].
  unfold compressBlock, compress. case_decide; [done|]. by intros [= <-].
Qed.

Lemma returned_compressBlock (cs : list buffer) :
  Forall (λ c, 0 < length c ≤ CHUNK_SIZE) cs →
  Forall (λ c, ∃ out, compressBlock c = Val out) cs →
  omap (returned compressBlock) cs = deflate <$> cs.
Proof.
  induction 1 as [|c cs Hc _ IH]; intros Hok; [done|].
  apply Forall_cons in Hok as [[out Hout] Hok].
  rewrite omap_cons, fmap_cons, IH by done. unfold returned. rewrite Hout.
  f_equal. apply compressBlock_Val; [|done]. intros ->. simpl in Hc. lia.
Qed.

Lemma returned_decompress_job (cs : list buffer) :
  Forall (λ c, 0 < length c ≤ CHUNK_SIZE) cs →
  omap (returned decompress_job) (deflate <$> cs) = cs.
Proof.
  induction 1 as [|c cs Hc _ IH]; [done|].
  rewrite fmap_cons, omap_cons, IH. unfold returned.
  by rewrite decompress_job_deflate by lia.
Qed.

(** X10: a compressed file that [compressFile] returns normally on is
    the header followed by one record per chunk of the input, each
    holding the zlib stream of its chunk; the records stand in the order
    in which the workers finished, a permutation of the chunk order. *)
Theorem compressed_file_layout content o :
  compressFile_runs (Some content) true o →
  result_of o = Returned →
  ∃ zs, zs ≡ₚ deflate <$> compressFile_chunks content
        ∧ written o = magic ++ concat (record <$> zs).
Proof.
  intros (m & (sched & Hs & ->)%pool_result_schedule & ->) Hret.
  rewrite compressFile_finish_run in Hret |- *.
  destruct (last (failures compressBlock _ sched)) as [e|] eqn:Hlast;
    [done|].
  exists (successes compressBlock (compressFile_chunks content) sched).
  split; [|done].
  rewrite (successes_schedule _ _ _ Hs).
  rewrite returned_compressBlock; [done | apply compressFile_chunks_bound |].
  apply (failures_nil_schedule _ _ _ Hs). by apply last_None.
Qed.

(** X11: when the size of the input leaves a last chunk of one or two
    bytes, every run of [compressFile] throws the compression error and
    leaves only the header in the output file. *)
Theorem tiny_last_chunk_always_fails content o :
  1 ≤ length content `mod` CHUNK_SIZE ≤ 2 →
  compressFile_runs (Some content) true o →
  written o = magic
  ∧ ∃ i, result_of o = Thrown {| thrower := Worker i;
                                 what := Compression_error |}.
Proof.
  intros Hmod (sched & Hs & ->)%compressFile_runs_schedule.
  destruct (compressFile_chunks_tail content) as (c & Hin & Hl); [lia|].
  apply list_elem_of_lookup in Hin as [i Hi].
  assert (compressBlock c = Exn Compression_error) as Hfail.
  { apply compressBlock_overflow.
    - intros ->. simpl in Hl. lia.
    - pose proof (deflate_min_length c). lia. }
  unfold compressFile. rewrite compressFile_finish_run.
  destruct (last (failures _ _ sched)) as [e|] eqn:Hlast.
  - split; [done|].
    apply last_Some_elem_of, failures_elem in Hlast
      as (j & b & _ & Hj & Ht).
    apply compressBlock_Exn in Hj. exists j.
    destruct e as [t w]. simpl in *. by subst.
  - destruct (failures_last_Some _ _ _ _ _ _ Hs Hi Hfail) as [e He].
    congruence.
Qed.

(** X12: a file of 13 to [CHUNK_SIZE] bytes is one chunk, and its round
    trip holds in every run: [compressFile] writes the header and one
    record, and [decompressFile] turns that file back into the input. *)
Theorem single_chunk_round_trip header0 (content : buffer) o1 o2 :
  13 ≤ length content ≤ CHUNK_SIZE →
  compressFile_runs (Some content) true o1 →
  decompressFile_runs header0 (Some (written o1)) true o2 →
  o1 = {| written := magic ++ record (deflate content);
          result_of := Returned |}
  ∧ o2 = {| written := content; result_of := Returned |}.
Proof.
  intros Hl Hrun1 Hrun2. pose proof CHUNK_SIZE_pos.
  assert (compressFile_chunks content = [content]) as Hcs.
  { destruct (decide (length content = CHUNK_SIZE)) as [Heq|Hne].
    - rewrite <- (app_nil_r content) at 1.
      by rewrite compressFile_chunks_full, compressFile_chunks_nil.
    - apply compressFile_chunks_last. lia. }
  apply compressFile_runs_schedule in Hrun1 as (sched & Hs & ->).
  rewrite Hcs in Hs. apply Permutation_singleton_r in Hs as ->.
  assert (compressFile [0] (Some content) true =
          {| written := magic ++ record (deflate content);
             result_of := Returned |}) as Ho1.
  { unfold compressFile. rewrite Hcs, compressFile_finish_run.
    unfold failures, successes. rewrite !omap_cons.
    change ([content] !! 0) with (Some content). cbv beta iota.
    rewrite compressBlock_chunk by done. simpl. by rewrite app_nil_r. }
  rewrite Ho1 in Hrun2. split; [exact Ho1|]. cbn [written] in Hrun2.
  apply (decompressFile_runs_valid _ _ [deflate content]) in Hrun2.
  - destruct Hrun2 as (sched & Hs & ->).
    apply Permutation_singleton_r in Hs as ->.
    rewrite decompressFile_finish_run.
    unfold failures, successes. rewrite !omap_cons.
    change ([deflate content] !! 0) with (Some (deflate content)).
    cbv beta iota. rewrite decompress_job_deflate by lia.
    simpl. by rewrite app_nil_r.
  - pose proof sizeof_uLong_ge.
    replace (record (deflate content))
      with (concat (record <$> [deflate content]) ++ [])
      by (simpl; by rewrite !app_nil_r).
    apply decompressFile_loop_wellformed; [|simpl; lia].
    apply Forall_singleton, deflate_chunk_fits. lia.
Qed.

Lemma Forall2_returns (job : buffer → res buffer) bufs outs :
  Forall2 (λ b out, job b = Val out) bufs outs →
  Forall (λ b, ∃ out, job b = Val out) bufs.
Proof. induction 1; constructor; eauto. Qed.

(** X13: when the workers of both calls finish in launch order, the
    round trip holds for every input whose chunks have 13 bytes or more
    each, the empty input included: decompressing what [compressFile]
    wrote gives the input back. *)
Theorem round_trip_in_launch_order header0 (content : buffer) :
  Forall (λ c, 13 ≤ length c) (compressFile_chunks content) →
  decompressFile (seq 0 (length (compressFile_chunks content))) header0
    (Some (written (compressFile
                      (seq 0 (length (compressFile_chunks content)))
                      (Some content) true))) true
  = {| written := content; result_of := Returned |}.
Proof.
  intros Hbig. pose proof (compressFile_chunks_bound content) as Hbound.
  pose proof (compressFile_chunks_concat content) as Hcat.
  unfold compressFile.
  set (cs := compressFile_chunks content) in *.
  assert (Forall2 (λ b out, compressBlock b = Val out) cs (deflate <$> cs))
    as Hc.
  { apply Forall2_fmap_r, Forall_Forall2_diag.
    rewrite Forall_forall in Hbig, Hbound. apply Forall_forall.
    intros c Hin. apply compressBlock_chunk.
    specialize (Hbig c Hin). specialize (Hbound c Hin). simpl in *. lia. }
  assert (Forall2 (λ b out, decompress_job b = Val out) (deflate <$> cs) cs)
    as Hd.
  { apply Forall2_fmap_l, Forall_Forall2_diag.
    eapply Forall_impl; [apply Hbound|]. intros c Hl.
    apply decompress_job_deflate. simpl in Hl. lia. }
  rewrite compressFile_finish_run.
  rewrite (successes_all _ _ _ (Forall2_returns _ _ _ Hc)).
  rewrite (successes_in_order _ _ _ Hc). cbn [written].
  etrans; [apply (decompressFile_valid _ _ _ (deflate <$> cs))|].
  2: { rewrite decompressFile_finish_run.
    rewrite (successes_all _ _ _ (Forall2_returns _ _ _ Hd)).
    rewrite <- (length_fmap deflate cs).
    by rewrite (successes_in_order _ _ _ Hd), Hcat. }
  pose proof sizeof_uLong_ge.
  rewrite <- (app_nil_r (concat _)).
  apply decompressFile_loop_wellformed; [|simpl; lia].
  apply Forall_fmap. eapply Forall_impl; [apply Hbound|].
  intros c Hl. apply deflate_chunk_fits. simpl in Hl. lia.
Qed.

End FileProperties.

Lemma compressed_file_layout_witness :
  let content := [x00; x01; x02; x03; x04; x05; x06] in
  let o := @compressFile LP64 store_codec [0] (Some content) true in
  @compressFile_runs LP64 store_codec (Some content) true o
  ∧ result_of o = Returned
  ∧ ∃ zs, zs ≡ₚ @deflate store_codec <$> compressFile_chunks content
          ∧ written o = magic ++ concat (@record LP64 <$> zs).
Proof.
  intros content o.
  assert (@compressFile_runs LP64 store_codec (Some content) true o) as Hrun.
  { apply (@compressFile_runs_intro LP64 store_codec). vm_compute.
    reflexivity. }
  split_and!; [done | reflexivity |].
  apply (@compressed_file_layout LP64 store_codec content o);
    [done | reflexivity].
Defined.

Lemma tiny_last_chunk_always_fails_witness :
  let o := @compressFile LP64 store_codec [0] (Some [x2a; x2b]) true in
  1 ≤ length [x2a; x2b] `mod` CHUNK_SIZE ≤ 2
  ∧ @compressFile_runs LP64 store_codec (Some [x2a; x2b]) true o
  ∧ written o = magic
  ∧ ∃ i, result_of o = Thrown {| thrower := Worker i;
                                 what := Compression_error |}.
Proof.
  intros o. pose proof CHUNK_SIZE_val as Hc.
  assert (1 ≤ length [x2a; x2b] `mod` CHUNK_SIZE ≤ 2) as Hmod
    by (rewrite Nat.mod_small; simpl; lia).
  assert (@compressFile_runs LP64 store_codec (Some [x2a; x2b]) true o)
    as Hrun.
  { apply (@compressFile_runs_intro LP64 store_codec). vm_compute.
    reflexivity. }
  split_and!; [lia | lia | done | |];
    apply (@tiny_last_chunk_always_fails LP64 store_codec [x2a; x2b] o);
    done.
Defined.

Lemma single_chunk_round_trip_witness :
  let content := [x00; x01; x02; x03; x04; x05; x06; x07; x08; x09; x0a;
                  x0b; x0c; x0d] in
  let o1 := @compressFile LP64 store_codec [0] (Some content) true in
  let o2 := @decompressFile LP64 store_codec [0] [] (Some (written o1)) true in
  13 ≤ length content ≤ CHUNK_SIZE
  ∧ @compressFile_runs LP64 store_codec (Some content) true o1
  ∧ @decompressFile_runs LP64 store_codec [] (Some (written o1)) true o2
  ∧ o2 = {| written := content; result_of := Returned |}.
Proof.
  intros content o1 o2. pose proof CHUNK_SIZE_val as Hc.
  assert (13 ≤ length content ≤ CHUNK_SIZE) as Hl by (simpl; lia).
  assert (@compressFile_runs LP64 store_codec (Some content) true o1) as H1.
  { apply (@compressFile_runs_intro LP64 store_codec). vm_compute.
    reflexivity. }
  assert (@decompressFile_runs LP64 store_codec [] (Some (written o1)) true o2)
    as H2.
  { apply (@decompressFile_runs_intro LP64 store_codec [0] []
             (@record LP64 (@deflate store_codec content))
             [@deflate store_codec content]);
      vm_compute; reflexivity. }
  split_and!; [lia | lia | done | done |].
  apply (@single_chunk_round_trip LP64 store_codec [] content o1 o2); done.
Defined.

Lemma round_trip_in_launch_order_witness :
  let content := [x00; x01; x02; x03; x04; x05; x06; x07; x08; x09; x0a;
                  x0b; x0c; x0d] in
  Forall (λ c, 13 ≤ length c) (compressFile_chunks content)
  ∧ @decompressFile LP64 store_codec
      (seq 0 (length (compressFile_chunks content))) []
      (Some (written (@compressFile LP64 store_codec
                        (seq 0 (length (compressFile_chunks content)))
                        (Some content) true))) true
    = {| written := content; result_of := Returned |}.
Proof.
  intros content.
  assert (Forall (λ c, 13 ≤ length c) (compressFile_chunks content)) as Hall.
  { rewrite compressFile_chunks_last.
    - apply Forall_singleton. simpl. lia.
    - pose proof CHUNK_SIZE_val. simpl. lia. }
  split; [done|].
  by apply (@round_trip_in_launch_order LP64 store_codec [] content).
Defined.

(** ** [main] *)

Section MainProperties.
Context {platform : Platform} {zlib : Zlib}.

Lemma successes_compressBlock_fit content sched :
  Forall (λ p, (N.of_nat (length p) < uLong_max_succ)%N)
    (successes compressBlock (compressFile_chunks content) sched).
Proof.
  apply Forall_forall. intros z (b & Hb & Hz)%successes_elem.
  pose proof (compressFile_chunks_bound content) as Hbound.
  rewrite Forall_forall in Hbound. specialize (Hbound b Hb). simpl in Hbound.
  apply compressBlock_Val in Hz as ->.
  - apply deflate_chunk_fits. lia.
  - intros ->. simpl in Hbound. lia.
Qed.

Lemma decompress_after_compress sched1 sched2 header0 (content : buffer) :
  last (failures compressBlock (compressFile_chunks content) sched1) = None →
  decompressFile sched2 header0
    (Some (written (compressFile sched1 (Some content) true))) true
  = decompressFile_finish
      (run_workers decompress_job
         (successes compressBlock (compressFile_chunks content) sched1)
         sched2 shared_init).
Proof.
  intros Hnone. unfold compressFile.
  rewrite compressFile_finish_run, Hnone. cbn [written].
  apply decompressFile_valid. pose proof sizeof_uLong_ge.
  rewrite <- (app_nil_r (concat _)).
  apply decompressFile_loop_wellformed; [|simpl; lia].
  apply successes_compressBlock_fit.
Qed.

(** X15: when [main] returns 0, the file "decompressed.txt" is the
    concatenation of the chunks of the input file in some order; it has
    the bytes of the input, chunk by chunk, and so the same size. *)
Theorem main_success_keeps_the_chunks sched1 sched2 header0
  (content : buffer) compressed_dat decompressed_txt out :
  schedule (length (compressFile_chunks content)) sched1 →
  schedule (length (compressFile_chunks content)) sched2 →
  main sched1 sched2 header0 (Some content) compressed_dat decompressed_txt
  = (Exit 0, out) →
  (∃ cs, cs ≡ₚ compressFile_chunks content ∧ out = concat cs)
  ∧ out ≡ₚ content.
Proof.
  intros Hs1 Hs2. unfold main.
  destruct compressed_dat; [|done].
  destruct (last (failures compressBlock (compressFile_chunks content) sched1))
    as [e|] eqn:Hlast.
  { unfold compressFile. by rewrite compressFile_finish_run, Hlast. }
  assert (result_of (compressFile sched1 (Some content) true) = Returned)
    as ->.
  { unfold compressFile. by rewrite compressFile_finish_run, Hlast. }
  destruct decompressed_txt; [|done].
  rewrite decompress_after_compress by done.
  rewrite decompressFile_finish_run.
  destruct (last (failures decompress_job _ sched2)); [done|].
  cbn [result_of written]. intros [= <-].
  pose proof (compressFile_chunks_bound content) as Hbound.
  set (cs := compressFile_chunks content) in *.
  assert (successes compressBlock cs sched1 ≡ₚ deflate <$> cs) as Hz.
  { rewrite (successes_schedule _ _ _ Hs1).
    rewrite returned_compressBlock; [done | done |].
    apply (failures_nil_schedule _ _ _ Hs1). by apply last_None. }
  assert (successes decompress_job (successes compressBlock cs sched1) sched2
          ≡ₚ cs) as Hperm.
  { rewrite successes_schedule
      by (unfold schedule; by rewrite Hz, length_fmap).
    rewrite Hz. by rewrite returned_decompress_job. }
  split.
  - eexists. split; [exact Hperm | done].
  - rewrite (concat_Permutation _ _ Hperm). unfold cs.
    by rewrite (compressFile_chunks_concat content).
Qed.

End MainProperties.

Lemma main_success_keeps_the_chunks_witness :
  let content := [x00; x01; x02; x03; x04; x05; x06; x07; x08; x09; x0a;
                  x0b; x0c; x0d] in
  schedule (length (compressFile_chunks content)) [0]
  ∧ @main LP64 store_codec [0] [0] [] (Some content) true true
    = (Exit 0, content)
  ∧ content ≡ₚ content.
Proof.
  intros content.
  assert (schedule (length (compressFile_chunks content)) [0]) as Hs
    by (vm_compute; reflexivity).
  assert (@main LP64 store_codec [0] [0] [] (Some content) true true
          = (Exit 0, content)) as Hmain by (vm_compute; reflexivity).
  split_and!; [done | done |].
  apply (proj2 (@main_success_keeps_the_chunks LP64 store_codec [0] [0] []
                  content true true content Hs Hs Hmain)).
Defined.

(** ** An invariant of the pool *)

Lemma length_omap_le {A B} (f : A → option B) (l : list A) :
  length (omap f l) ≤ length l.
Proof.
  induction l as [|x l IH]; [done|].
  rewrite omap_cons. destruct (f x); simpl; lia.
Qed.

(** X16: in every state a run of the pool reaches, the threads launched
    and the chunks still to be read add up to the chunks of the file,
    thread [i] holds chunk [i], no worker has gone through its critical
    section twice, and the vector of results has at most one entry per
    worker that went through it. *)
Theorem pool_invariant job bufs tr p :
  pool_steps job (pool_init bufs) tr p →
  length (threads p) + length (queue p) = length bufs
  ∧ (∀ i b st, threads p !! i = Some (b, st) → bufs !! i = Some b)
  ∧ NoDup (commits tr)
  ∧ length (chunks (mem p)) ≤ length (commits tr).
Proof.
  intros (Hb & Hm & Hnd & _)%pool_steps_inv. split_and!.
  - by rewrite <- Hb, length_app, length_fmap.
  - intros i b st Hi. rewrite <- Hb. apply lookup_app_l_Some.
    by rewrite list_lookup_fmap, Hi.
  - done.
  - rewrite Hm, run_workers_chunks. simpl. apply length_omap_le.
Qed.

Lemma pool_invariant_witness :
  let job := @decompress_job store_codec in
  let p := {| queue := [];
              threads := [([x00], Finished); ([x01], Running)];
              mem := worker job 0 [x00] shared_init |} in
  pool_steps job (pool_init [[x00]; [x01]]) [Launch; Commit 0; Launch] p
  ∧ length (threads p) + length (queue p) = 2
  ∧ NoDup (commits [Launch; Commit 0; Launch]).
Proof.
  intros job p.
  assert (pool_steps job (pool_init [[x00]; [x01]])
            [Launch; Commit 0; Launch] p) as Hsteps.
  { eapply pool_steps_cons; [apply step_launch|].
    eapply pool_steps_cons; [by apply (step_commit job _ _ _ 0 [x00])|].
    eapply pool_steps_cons; [apply step_launch|]. constructor. }
  split; [done|].
  destruct (pool_invariant job _ _ _ Hsteps) as (Hlen & _ & Hnd & _).
  split; [exact Hlen | exact Hnd].
Defined.
